(** * Disunity: the chunked stream, the binary reader and the serialized-file
      decoder of [Disunity.py], embedded as state-passing functions.

    Python objects are mutable and exceptions leave the mutations made so
    far in place.  Every method is therefore a function from the state of
    the object to an outcome (a value or a raised exception) together with
    the state the call leaves behind. *)

From Stdlib Require Import ZArith Lia Strings.Byte Strings.String.
From stdpp Require Import base option list gmap.

Local Open Scope Z_scope.

(** ** Exceptions and the state-and-exception monad *)

Inductive PyError : Type :=
| IndexError                          (* [self.chunks[...]] out of range *)
| UnboundLocalError                   (* [return chunk] with no loop pass *)
| ValueError_offset (offset : Z)      (* Chunk.seek: "Offset out of range:" *)
| ValueError_uuid                     (* UUID(bytes=...) with len <> 16 *)
| OSError_seek                        (* plain file: seek target refused *)
| NotImplementedError_whence          (* ChunkedFileIO.seek, unknown whence *)
| ZeroDivisionError                   (* align(0) *)
| StructError                         (* struct.unpack: wrong buffer size *)
| UnicodeDecodeError                  (* bytes.decode("ascii") *)
| AttributeError (name : string)      (* Munch attribute never assigned *)
| NameError (name : string)           (* unbound local or global name *)
| RuntimeError_dataOffset (v : Z)     (* "Invalid dataOffset %d" *)
| RuntimeError_metadataSize (v : Z)   (* "Invalid metadataSize %d" *)
| NotImplementedError_version (v : Z) (* "Unsupported format version %d" *)
| NotImplementedError_typenode        (* "Runtime type node reading" *)
| RuntimeError_path_id (v : Z).       (* "Duplicate path ID %d" *)

(** [OutOfFuel] is not a Python outcome: it marks a [while] loop cut off by
    the fuel the model gives it. *)
Inductive outcome (A : Type) : Type :=
| Return (a : A)
| Raise (e : PyError)
| OutOfFuel.
Arguments Return {A} a.
Arguments Raise {A} e.
Arguments OutOfFuel {A}.

Definition M (S A : Type) : Type := S → outcome A * S.

Definition ret {S A} (a : A) : M S A := λ s, (Return a, s).
Definition raise {S A} (e : PyError) : M S A := λ s, (Raise e, s).
Definition bind {S A B} (m : M S A) (k : A → M S B) : M S B :=
  λ s, match m s with
       | (Return a, s') => k a s'
       | (Raise e, s') => (Raise e, s')
       | (OutOfFuel, s') => (OutOfFuel, s')
       end.
Definition out_of_fuel {S A} : M S A := λ s, (OutOfFuel, s).
Definition get {S} : M S S := λ s, (Return s, s).
Definition put {S} (s : S) : M S unit := λ _, (Return tt, s).

Declare Scope py_scope.
Delimit Scope py_scope with py.
Notation "x <- m ;; k" := (bind m (λ x, k))
  (at level 100, m at level 99, right associativity) : py_scope.
Notation "m ;;; k" := (bind m (λ _, k))
  (at level 100, right associativity) : py_scope.
Local Open Scope py_scope.

(** [for i in range(0, n): body] with an accumulator threaded through. *)
Fixpoint for_range {S A} (n : nat) (body : A → M S A) (acc : A) : M S A :=
  match n with
  | O => ret acc
  | S n' => acc' <- body acc ;; for_range n' body acc'
  end.

(** ** File handles ([open(path, "rb")])

    A path is modelled by the bytes of the file it names. *)

Definition whence_SET : Z := 0.
Definition whence_CUR : Z := 1.
Definition whence_END : Z := 2.

Record Handle : Type := { content : list byte; position : Z }.

Definition open (path : list byte) : Handle :=
  {| content := path; position := 0 |}.

Definition remaining (h : Handle) : list byte :=
  drop (Z.to_nat (position h)) (content h).

(** [handle.read(size)]: a negative size reads to the end of the file. *)
Definition Handle_read (size : Z) : M Handle (list byte) := λ h,
  let data := if size <? 0 then remaining h
              else take (Z.to_nat size) (remaining h) in
  (Return data,
   {| content := content h; position := position h + Z.of_nat (length data) |}).

Definition Handle_tell : M Handle Z := λ h, (Return (position h), h).

(** [handle.seek(offset, whence)]: seeking past the end is allowed, a
    negative target or an unknown [whence] is refused. *)
Definition Handle_seek (offset whence : Z) : M Handle unit := λ h,
  let target :=
    if whence =? whence_SET then Some offset
    else if whence =? whence_CUR then Some (position h + offset)
    else if whence =? whence_END
         then Some (Z.of_nat (length (content h)) + offset)
    else None in
  match target with
  | Some p => if p <? 0 then (Raise OSError_seek, h)
              else (Return tt, {| content := content h; position := p |})
  | None => (Raise OSError_seek, h)
  end.

(** ** ChunkedFileIO.Chunk *)

Record Chunk : Type :=
  { handle : Handle; size : Z; start : Z; end_ : Z }.

Definition set_handle (c : Chunk) (h : Handle) : Chunk :=
  {| handle := h; size := size c; start := start c; end_ := end_ c |}.

Definition Chunk_init (path : list byte) (pos : Z) : Chunk :=
  let h := open path in
  let sz := Z.of_nat (length (content h)) in
  {| handle := h; size := sz; start := pos; end_ := pos + sz |}.

Definition on_handle {A} (m : M Handle A) : M Chunk A := λ c,
  let '(r, h) := m (handle c) in (r, set_handle c h).

Definition Chunk_tell : M Chunk Z :=
  c <- get ;; p <- on_handle Handle_tell ;; ret (start c + p).

Definition Chunk_read (sz : Z) : M Chunk (list byte) :=
  on_handle (Handle_read sz).

Definition Chunk_seek (offset : Z) : M Chunk unit :=
  c <- get ;;
  let offset := offset - start c in
  if (offset <? 0) || (offset >? size c)
  then raise (ValueError_offset offset)
  else on_handle (Handle_seek offset whence_SET).

(** ** ChunkedFileIO

    [chunks = []] is an attribute of the class: the list object is created
    once and every instance appends to and reads from that one list.
    [index = 0] is a class attribute too, but it is only ever assigned
    through [self], which gives each instance its own [index]; an instance
    that never assigned it reads the class value 0.

    A [ChunkedFileIO] value is the view one instance has: the shared list
    and its own index.  A chunk object is referred to by its place in the
    list (the list only grows). *)

Record ChunkedFileIO : Type := { chunks : list Chunk; index : nat }.

Definition set_index (i : nat) : M ChunkedFileIO unit := λ st,
  (Return tt, {| chunks := chunks st; index := i |}).

(** Run a method of the chunk object stored at place [i]. *)
Definition on_chunk {A} (i : nat) (m : M Chunk A) : M ChunkedFileIO A := λ st,
  match chunks st !! i with
  | Some c => let '(r, c') := m c in
              (r, {| chunks := <[i := c']> (chunks st); index := index st |})
  | None => (Raise IndexError, st)
  end.

(** [__init__]: the loop over [paths]; the state is the class-level list. *)
Fixpoint ChunkedFileIO_init_loop (pos : Z) (paths : list (list byte))
  : M (list Chunk) unit :=
  match paths with
  | [] => ret tt
  | path :: paths' =>
      let chunk := Chunk_init path pos in
      if size chunk =? 0
      then ChunkedFileIO_init_loop pos paths'
      else cs <- get ;; put (cs ++ [chunk]) ;;;
           ChunkedFileIO_init_loop (pos + size chunk) paths'
  end.

Definition ChunkedFileIO_init (paths : list (list byte)) : M (list Chunk) unit :=
  ChunkedFileIO_init_loop 0 paths.

(** [self.chunks[self.index]], as a reference to the chunk object. *)
Definition chunk : M ChunkedFileIO nat :=
  st <- get ;;
  match chunks st !! index st with
  | Some _ => ret (index st)
  | None => raise IndexError
  end.

Definition chunk_next : M ChunkedFileIO (option nat) :=
  st <- get ;;
  if (length (chunks st) <=? index st + 1)%nat
  then ret None
  else set_index (index st + 1)%nat ;;; c <- chunk ;; ret (Some c).

(** [for self.index, chunk in enumerate(self.chunks): if chunk.end >= pos: break]
    started at place [i] of the list: the last place assigned to [self.index],
    [cur] if the loop body never ran. *)
Fixpoint chunk_find_loop (pos : Z) (cur i : nat) (l : list Chunk) : nat :=
  match l with
  | [] => cur
  | c :: l' => if end_ c >=? pos then i else chunk_find_loop pos i (S i) l'
  end.

Definition chunk_find (pos : Z) : M ChunkedFileIO nat :=
  st <- get ;;
  match chunks st with
  | [] => raise UnboundLocalError
  | _ => let i := chunk_find_loop pos (index st) 0 (chunks st) in
         set_index i ;;; ret i
  end.

Definition ChunkedFileIO_read (sz : Z) : M ChunkedFileIO (list byte) :=
  c <- chunk ;;
  data <- on_chunk c (Chunk_read sz) ;;
  match data with
  | [] => nxt <- chunk_next ;;
          match nxt with
          | Some c' => on_chunk c' (Chunk_read sz)
          | None => ret data
          end
  | _ => ret data
  end.

Definition ChunkedFileIO_seek (offset whence : Z) : M ChunkedFileIO unit :=
  c <- chunk ;;
  pos <- (if whence =? whence_CUR
          then t <- on_chunk c Chunk_tell ;; ret (offset + t)
          else if whence =? whence_END
          then st <- get ;;
               match last (chunks st) with
               | Some l => ret (offset + end_ l)
               | None => raise IndexError
               end
          else if negb (whence =? whence_SET)
          then raise NotImplementedError_whence
          else ret offset) ;;
  st <- get ;;
  c <- (match chunks st !! c with
        | Some ch => if (pos <? start ch) || (pos >? end_ ch)
                     then chunk_find pos else ret c
        | None => raise IndexError
        end) ;;
  on_chunk c (Chunk_seek pos).

Definition ChunkedFileIO_tell : M ChunkedFileIO Z :=
  c <- chunk ;; on_chunk c Chunk_tell.

(** ** The stream interface BinaryReader relies on

    [SerializedFileReader.read] is handed either a plain file or a
    [ChunkedFileIO]; [BinaryReader] only calls [read], [seek] and [tell]. *)

Class Stream (S : Type) : Type :=
  { file_read : Z → M S (list byte);
    file_seek : Z → Z → M S unit;
    file_tell : M S Z }.

#[global] Instance Handle_Stream : Stream Handle :=
  {| file_read := Handle_read; file_seek := Handle_seek;
     file_tell := Handle_tell |}.

#[global] Instance ChunkedFileIO_Stream : Stream ChunkedFileIO :=
  {| file_read := ChunkedFileIO_read; file_seek := ChunkedFileIO_seek;
     file_tell := ChunkedFileIO_tell |}.

(** ** struct formats

    Without a prefix [struct] uses the byte order and sizes of the host;
    the model takes a little-endian host with the usual sizes (2, 4 and 8
    bytes for h, i and q). *)

Inductive IntType : Type := fmt_h | fmt_H | fmt_i | fmt_I | fmt_q | fmt_Q.

Definition calcsize (t : IntType) : Z :=
  match t with
  | fmt_h | fmt_H => 2
  | fmt_i | fmt_I => 4
  | fmt_q | fmt_Q => 8
  end.

Definition is_signed (t : IntType) : bool :=
  match t with
  | fmt_h | fmt_i | fmt_q => true
  | fmt_H | fmt_I | fmt_Q => false
  end.

Definition byte_val (b : byte) : Z := Z.of_N (Byte.to_N b).

Fixpoint le_uint (data : list byte) : Z :=
  match data with
  | [] => 0
  | b :: data' => byte_val b + 256 * le_uint data'
  end.

Definition to_signed (bits : Z) (u : Z) : Z :=
  if u >=? 2 ^ (bits - 1) then u - 2 ^ bits else u.

(** [struct.unpack(format, data)[0]] for a one-integer format. *)
Definition unpack (big : bool) (t : IntType) (data : list byte) : option Z :=
  if Z.of_nat (length data) =? calcsize t
  then let u := le_uint (if big then rev data else data) in
       Some (if is_signed t then to_signed (8 * calcsize t) u else u)
  else None.

(** ** BinaryReader *)

Record BinaryReader (S : Type) : Type := { file : S; be : bool }.
Arguments file {S} _.
Arguments be {S} _.
Arguments Build_BinaryReader {S} _ _.

Definition BinaryReader_init {S} (f : S) : BinaryReader S :=
  {| file := f; be := false |}.

(** A value that is [None] in Python when the stream gave no byte. *)
Definition bool_ne_0 (b : option Z) : bool :=
  match b with
  | Some 0 => false
  | _ => true
  end.

(** The [str] whose character codes are [buf]. *)
Definition py_str (buf : list Z) : string :=
  string_of_list_ascii (map (λ b, Ascii.ascii_of_N (Z.to_N b)) buf).

Definition decode_ascii {S} (buf : list Z) : M S string :=
  if forallb (λ b, b <? 128) buf then ret (py_str buf)
  else raise UnicodeDecodeError.

Section BinaryReader.
Context {S : Type} `{Stream S}.

Definition on_file {A} (m : M S A) : M (BinaryReader S) A := λ r,
  let '(o, f) := m (file r) in (o, {| file := f; be := be r |}).

Definition set_be (b : bool) : M (BinaryReader S) unit := λ r,
  (Return tt, {| file := file r; be := b |}).

Definition tell : M (BinaryReader S) Z := on_file file_tell.

Definition seek (offset whence : Z) : M (BinaryReader S) unit :=
  on_file (file_seek offset whence).

Definition align (pad : Z) : M (BinaryReader S) unit :=
  pos <- tell ;;
  if pad =? 0 then raise ZeroDivisionError
  else let newpos := (pos + pad - 1) / pad * pad in
       if negb (newpos =? pos) then seek newpos whence_SET else ret tt.

Definition read (sz : Z) : M (BinaryReader S) (list byte) :=
  on_file (file_read sz).

Definition read_int8 : M (BinaryReader S) (option Z) :=
  b <- on_file (file_read 1) ;;
  ret (match b with
       | [] => None
       | b0 :: _ => Some (byte_val b0)
       end).

(** The [while b and b != 0] loop, at most [fuel] passes. *)
Fixpoint read_cstring_loop (fuel : nat) (buf : list Z) (b : option Z)
  : M (BinaryReader S) (list Z) :=
  match b with
  | None | Some 0 => ret buf
  | Some v =>
      match fuel with
      | O => out_of_fuel
      | Datatypes.S fuel' =>
          b' <- read_int8 ;; read_cstring_loop fuel' (buf ++ [v]) b'
      end
  end.

Definition read_cstring (fuel : nat) : M (BinaryReader S) string :=
  b <- read_int8 ;;
  buf <- read_cstring_loop fuel [] b ;;
  decode_ascii buf.

Definition read_struct (big : bool) (t : IntType) : M (BinaryReader S) Z :=
  let sz := calcsize t in
  data <- on_file (file_read sz) ;;
  match unpack big t data with
  | Some v => ret v
  | None => raise StructError
  end.

Definition read_int (t : IntType) : M (BinaryReader S) Z :=
  r <- get ;; read_struct (be r) t.

Definition read_uuid : M (BinaryReader S) (list byte) :=
  data <- read 16 ;;
  if (length data =? 16)%nat then ret data else raise ValueError_uuid.

Definition read_int16 := read_int fmt_h.
Definition read_uint16 := read_int fmt_H.
Definition read_int32 := read_int fmt_i.
Definition read_uint32 := read_int fmt_I.
Definition read_int64 := read_int fmt_q.
Definition read_uint64 := read_int fmt_Q.
End BinaryReader.

(** ** SerializedFileReader

    The [Munch] records: an attribute that a branch did not assign is
    [None]; reading it raises [AttributeError]. *)

Record Header : Type :=
  { metadataSize : Z; fileSize : Z; version : Z; dataOffset : Z;
    endianness : option (option Z) }.

Record BClass : Type :=
  { script_id : option (list byte); old_type_hash : list byte }.

Record Types : Type :=
  { signature : option string; attributes : option Z;
    embedded : option bool; classes : gmap Z BClass }.

Record Obj : Type :=
  { byte_start : Z; byte_size : Z; type_id : Z; class_id : Z;
    script_type_index : option Z; is_destroyed : option bool;
    stripped : option bool }.

Record ScriptType : Type :=
  { serialized_file_index : Z; identifier_in_file : Z }.

Record External : Type :=
  { asset_path : option string; guid : list byte; type_ : Z;
    file_path : string }.

Record SerializedFile : Type :=
  { header : Header; types : Types; objects : gmap Z Obj;
    script_types : option (list ScriptType); externals : list External }.

Section SerializedFileReader.
Context {S : Type} `{Stream S}.
(** Passes allowed to each [read_cstring] loop. *)
Variable fuel : nat.

Definition read_header : M (BinaryReader S) Header :=
  set_be true ;;;
  metadataSize <- read_int32 ;;
  fileSize <- read_int32 ;;
  version <- read_int32 ;;
  dataOffset <- read_int32 ;;
  if dataOffset >? fileSize then raise (RuntimeError_dataOffset dataOffset)
  else if metadataSize >? fileSize
  then raise (RuntimeError_metadataSize metadataSize)
  else
    endianness <- (if version >=? 9
                   then e <- read_int8 ;; read 3 ;;; ret (Some e)
                   else ret None) ;;
    (if version >? 5 then set_be false else ret tt) ;;;
    if negb (version =? 15) then raise (NotImplementedError_version version)
    else ret {| metadataSize := metadataSize; fileSize := fileSize;
                version := version; dataOffset := dataOffset;
                endianness := endianness |}.

Definition read_types_entry (embedded : option bool)
    (classes : gmap Z BClass) : M (BinaryReader S) (gmap Z BClass) :=
  class_id <- read_int32 ;;
  script_id <- (if class_id <? 0 then u <- read_uuid ;; ret (Some u)
                else ret None) ;;
  old_type_hash <- read_uuid ;;
  match embedded with
  | None => raise (AttributeError "embedded")
  | Some true => raise NotImplementedError_typenode
  | Some false =>
      match classes !! class_id with
      | Some _ =>
          (* the message is formatted from [path_id], which this
             function never binds *)
          raise (NameError "path_id")
      | None =>
          ret (<[class_id := {| script_id := script_id;
                                old_type_hash := old_type_hash |}]> classes)
      end
  end.

Definition read_types (hd : Header) : M (BinaryReader S) Types :=
  (if version hd <? 9
   then seek (fileSize hd - metadataSize hd + 1) whence_SET
   else ret tt) ;;;
  sa <- (if version hd >? 6
         then s <- read_cstring fuel ;; a <- read_int32 ;;
              ret (Some s, Some a)
         else ret (None, None)) ;;
  embedded <- (if version hd >? 13
               then b <- read_int8 ;; ret (Some (bool_ne_0 b))
               else ret None) ;;
  num_classes <- read_int32 ;;
  classes <- for_range (Z.to_nat num_classes)
               (read_types_entry embedded) ∅ ;;
  ret {| signature := fst sa; attributes := snd sa;
         embedded := embedded; classes := classes |}.

Definition read_objects_entry (hd : Header) (objects : gmap Z Obj)
  : M (BinaryReader S) (gmap Z Obj) :=
  (if version hd >? 13 then align 4 else ret tt) ;;;
  path_id <- read_int64 ;;
  byte_start <- read_uint32 ;;
  byte_size <- read_uint32 ;;
  type_id <- read_int32 ;;
  class_id <- read_int16 ;;
  sd <- (if version hd >? 13
         then i <- read_int16 ;; ret (Some i, None)
         else d <- read_int16 ;; ret (None, Some (negb (d =? 0)))) ;;
  stripped <- (if version hd >? 14
               then b <- read_int8 ;; ret (Some (bool_ne_0 b))
               else ret None) ;;
  match objects !! path_id with
  | Some _ => raise (RuntimeError_path_id path_id)
  | None =>
      ret (<[path_id := {| byte_start := byte_start; byte_size := byte_size;
                            type_id := type_id; class_id := class_id;
                            script_type_index := fst sd;
                            is_destroyed := snd sd;
                            stripped := stripped |}]> objects)
  end.

Definition read_objects (hd : Header) : M (BinaryReader S) (gmap Z Obj) :=
  num_entries <- read_int32 ;;
  for_range (Z.to_nat num_entries) (read_objects_entry hd) ∅.

Definition read_script_types : M (BinaryReader S) (list ScriptType) :=
  num_entries <- read_int32 ;;
  for_range (Z.to_nat num_entries)
    (λ acc, align 4 ;;;
            sfi <- read_int32 ;;
            iif <- read_int64 ;;
            ret (acc ++ [ {| serialized_file_index := sfi;
                             identifier_in_file := iif |} ])) [].

Definition read_externals (hd : Header) : M (BinaryReader S) (list External) :=
  num_entries <- read_int32 ;;
  for_range (Z.to_nat num_entries)
    (λ acc, ap <- (if version hd >? 5
                   then p <- read_cstring fuel ;; ret (Some p)
                   else ret None) ;;
            g <- read_uuid ;;
            t <- read_int32 ;;
            fp <- read_cstring fuel ;;
            ret (acc ++ [ {| asset_path := ap; guid := g; type_ := t;
                             file_path := fp |} ])) [].

(** [SerializedFileReader.read], as a computation on the reader it
    creates; [SerializedFileReader_read] runs it on a file. *)
Definition read_sections : M (BinaryReader S) SerializedFile :=
  hd <- read_header ;;
  ty <- read_types hd ;;
  ob <- read_objects hd ;;
  st <- (if version hd >? 10
         then l <- read_script_types ;; ret (Some l)
         else ret None) ;;
  ex <- read_externals hd ;;
  ret {| header := hd; types := ty; objects := ob; script_types := st;
         externals := ex |}.

Definition SerializedFileReader_read (f : S)
  : outcome SerializedFile * BinaryReader S :=
  read_sections (BinaryReader_init f).
End SerializedFileReader.

(** ** Several instances in one process

    The class attribute [chunks] lives once per process; each instance
    carries its own [index].  An instance is referred to by its place in
    [instances]. *)

Record Process : Type :=
  { ChunkedFileIO_chunks : list Chunk; instances : list nat }.

(** The state after the class statement has run. *)
Definition process_start : Process :=
  {| ChunkedFileIO_chunks := []; instances := [] |}.

(** [ChunkedFileIO(paths)] *)
Definition ChunkedFileIO_new (paths : list (list byte)) : M Process nat := λ p,
  let '(o, cs) := ChunkedFileIO_init paths (ChunkedFileIO_chunks p) in
  let p' := {| ChunkedFileIO_chunks := cs; instances := instances p ++ [0%nat] |} in
  match o with
  | Return _ => (Return (length (instances p)), p')
  | Raise e => (Raise e, p')
  | OutOfFuel => (OutOfFuel, p')
  end.

Definition view (p : Process) (self : nat) : option ChunkedFileIO :=
  i ← instances p !! self;
  Some {| chunks := ChunkedFileIO_chunks p; index := i |}.

(** Call a method on instance [self]. *)
Definition on_instance {A} (self : nat) (m : M ChunkedFileIO A) : M Process A :=
  λ p, match view p self with
       | Some st =>
           let '(o, st') := m st in
           (o, {| ChunkedFileIO_chunks := chunks st';
                  instances := <[self := index st']> (instances p) |})
       | None => (Raise (NameError "self"), p)
       end.

(** ** Layout of the chunk list *)

(** The chunks lie end to end from [pos], none is empty, and each handle
    rests inside its file. *)
Fixpoint laid_out (pos : Z) (l : list Chunk) : Prop :=
  match l with
  | [] => True
  | c :: l' =>
      start c = pos ∧ size c = Z.of_nat (length (content (handle c))) ∧
      0 < size c ∧ end_ c = pos + size c ∧
      0 ≤ position (handle c) ≤ size c ∧ laid_out (end_ c) l'
  end.

Definition wf (st : ChunkedFileIO) : Prop :=
  laid_out 0 (chunks st) ∧ (index st < length (chunks st))%nat.

(** [self.chunks[-1].end], 0 for the empty list. *)
Definition total (l : list Chunk) : Z :=
  match last l with
  | Some c => end_ c
  | None => 0
  end.

(** Python's [data[off:off+n]], and [data[off:]] for a negative [n]. *)
Definition py_slice (data : list byte) (off n : Z) : list byte :=
  if n <? 0 then drop (Z.to_nat off) data
  else take (Z.to_nat n) (drop (Z.to_nat off) data).

(** What [Chunk.read(n)] returns and the chunk it leaves. *)
Definition read_data (n : Z) (c : Chunk) : list byte :=
  py_slice (content (handle c)) (position (handle c)) n.

Definition read_chunk (n : Z) (c : Chunk) : Chunk :=
  set_handle c
    {| content := content (handle c);
       position := position (handle c) + Z.of_nat (length (read_data n c)) |}.

(** The chunks [__init__] appends for [paths], the first one placed at
    [pos]. *)
Fixpoint layout (pos : Z) (paths : list (list byte)) : list Chunk :=
  match paths with
  | [] => []
  | path :: paths' =>
      if size (Chunk_init path pos) =? 0 then layout pos paths'
      else Chunk_init path pos
             :: layout (pos + size (Chunk_init path pos)) paths'
  end.

(** The absolute position [seek(offset, whence)] resolves to. *)
Definition resolve (st : ChunkedFileIO) (offset whence : Z) : option Z :=
  if whence =? whence_CUR
  then c ← chunks st !! index st; Some (offset + (start c + position (handle c)))
  else if whence =? whence_END then Some (offset + total (chunks st))
  else if whence =? whence_SET then Some offset
  else None.

(** The chunk [seek] selects for the absolute position [pos]. *)
Definition seek_target (st : ChunkedFileIO) (pos : Z) : nat :=
  match chunks st !! index st with
  | Some ch => if (pos <? start ch) || (pos >? end_ ch)
               then chunk_find_loop pos (index st) 0 (chunks st)
               else index st
  | None => index st
  end.

Definition set_position (c : Chunk) (p : Z) : Chunk :=
  set_handle c {| content := content (handle c); position := p |}.

(** The stream a first [ChunkedFileIO(paths)] of a process works on. *)
Definition built (paths : list (list byte)) : ChunkedFileIO :=
  {| chunks := snd (ChunkedFileIO_init paths []); index := 0 |}.

(** A reader over a plain file after [n] more bytes were consumed. *)
Definition advance (r : BinaryReader Handle) (n : nat) : BinaryReader Handle :=
  {| file := {| content := content (file r);
                position := position (file r) + Z.of_nat n |};
     be := be r |}.

(** Bytes written as numbers, for the examples. *)
Definition bytes (l : list Z) : list byte :=
  map (λ z, default x00 (Byte.of_N (Z.to_N z))) l.

(** A version-15 file whose type table holds two entries with class
    identifier 1. *)
Definition duplicate_class_file : list byte :=
  bytes ([0; 0; 0; 0] ++ [0; 0; 0; 100] ++ [0; 0; 0; 15] ++ [0; 0; 0; 0]
         ++ [0] ++ [0; 0; 0]                (* endianness, reserved *)
         ++ [0] ++ [0; 0; 0; 0] ++ [0]      (* signature, attributes, embedded *)
         ++ [2; 0; 0; 0]                    (* num_classes *)
         ++ [1; 0; 0; 0] ++ repeat 0 16     (* class 1, old type hash *)
         ++ [1; 0; 0; 0] ++ repeat 0 16).   (* class 1 again *)

(** A version-15 file with no class and two objects with path
    identifier 7. *)
Definition duplicate_path_file : list byte :=
  bytes ([0; 0; 0; 0] ++ [0; 0; 0; 100] ++ [0; 0; 0; 15] ++ [0; 0; 0; 0]
         ++ [0] ++ [0; 0; 0]
         ++ [0] ++ [0; 0; 0; 0] ++ [0]
         ++ [0; 0; 0; 0]                    (* num_classes *)
         ++ [2; 0; 0; 0]                    (* num_entries *)
         ++ [0; 0]                          (* padding to 36 *)
         ++ [7; 0; 0; 0; 0; 0; 0; 0] ++ repeat 0 17
         ++ [0; 0; 0]                       (* padding to 64 *)
         ++ [7; 0; 0; 0; 0; 0; 0; 0] ++ repeat 0 17).

(** A version-14 header with [fileSize] 100, followed by one byte. *)
Definition version_14_file : list byte :=
  bytes ([0; 0; 0; 0] ++ [0; 0; 0; 100] ++ [0; 0; 0; 14] ++ [0; 0; 0; 0]
         ++ [1]).

(** A version-14 header whose [dataOffset] 10 exceeds its [fileSize] 5. *)
Definition bad_offset_file : list byte :=
  bytes ([0; 0; 0; 0] ++ [0; 0; 0; 5] ++ [0; 0; 0; 14] ++ [0; 0; 0; 10]).

(** [k] calls of [read()] with the default size, their results in order. *)
Definition read_times (k : nat) : M ChunkedFileIO (list (list byte)) :=
  for_range k (λ acc, data <- ChunkedFileIO_read (-1) ;; ret (acc ++ [data])) [].

(** The chunks of [st] hold the files [paths]; the cursor is on chunk [j],
    whose handle is at its end, and the handles of the later chunks rest
    at 0. *)
Definition read_through (paths : list (list byte)) (j : nat)
    (st : ChunkedFileIO) : Prop :=
  index st = j ∧ length (chunks st) = length paths ∧
  ∀ i c, chunks st !! i = Some c →
         paths !! i = Some (content (handle c)) ∧
         0 ≤ position (handle c) ∧
         (i = j → position (handle c) = Z.of_nat (length (content (handle c)))) ∧
         ((j < i)%nat → position (handle c) = 0).

(** A version-15 header, and an object index holding one object with
    path identifier 7. *)
Definition header_15 : Header :=
  {| metadataSize := 0; fileSize := 100; version := 15; dataOffset := 0;
     endianness := Some (Some 0) |}.

Definition one_object_index : list byte :=
  bytes ([1; 0; 0; 0] ++ [7; 0; 0; 0; 0; 0; 0; 0] ++ repeat 0 17).

(** A script-type table with one entry, file index 2 and identifier 9. *)
Definition one_script_type : list byte :=
  bytes ([1; 0; 0; 0] ++ [2; 0; 0; 0] ++ [9; 0; 0; 0; 0; 0; 0; 0]).

(** A whole version-15 file: no class, one object, no script type, no
    external. *)
Definition small_file : list byte :=
  bytes ([0; 0; 0; 0] ++ [0; 0; 0; 100] ++ [0; 0; 0; 15] ++ [0; 0; 0; 0]
         ++ [0] ++ [0; 0; 0]
         ++ [0] ++ [0; 0; 0; 0] ++ [0]
         ++ [0; 0; 0; 0]                    (* num_classes *)
         ++ [1; 0; 0; 0]                    (* num_entries *)
         ++ [0; 0]                          (* padding to 36 *)
         ++ [7; 0; 0; 0; 0; 0; 0; 0] ++ repeat 0 17
         ++ [0; 0; 0; 0]                    (* script types *)
         ++ [0; 0; 0; 0]).                  (* externals *)

(** Successive one-byte reads on [r] return the bytes [bs], one per read,
    and then a read returns no byte and leaves the reader [r']. *)
Inductive one_byte_reads {S} `{Stream S}
  : BinaryReader S → list byte → BinaryReader S → Prop :=
| reads_no_byte (r r' : BinaryReader S) :
    on_file (file_read 1) r = (Return [], r') → one_byte_reads r [] r'
| reads_a_byte (r r1 r' : BinaryReader S) (b : byte) (more bs : list byte) :
    on_file (file_read 1) r = (Return (b :: more), r1) →
    one_byte_reads r1 bs r' → one_byte_reads r (b :: bs) r'.

(** Two calls fail the same way: the same exception, or both cut off. *)
Definition same_failure {A B} (o : outcome A) (o' : outcome B) : Prop :=
  match o, o' with
  | Raise e, Raise e' => e = e'
  | OutOfFuel, OutOfFuel => True
  | _, _ => False
  end.

(** A twelve-byte stream with its cursor at 5. *)
Definition reader_at_5 : BinaryReader ChunkedFileIO :=
  BinaryReader_init
    {| chunks := [set_position (Chunk_init (bytes (repeat 0 12)) 0) 5];
       index := 0 |}.

(** A type table with an empty signature, a false embedded flag and two
    classes, identifiers 1 and 2. *)
Definition two_class_table : list byte :=
  bytes ([0] ++ [0; 0; 0; 0] ++ [0]        (* signature, attributes, embedded *)
         ++ [2; 0; 0; 0]                    (* num_classes *)
         ++ [1; 0; 0; 0] ++ repeat 0 16     (* class 1, old type hash *)
         ++ [2; 0; 0; 0] ++ repeat 0 16).   (* class 2, old type hash *)

(** A six-byte stream with its cursor at 5. *)
Definition short_reader_at_5 : BinaryReader ChunkedFileIO :=
  BinaryReader_init
    {| chunks := [set_position (Chunk_init (bytes (repeat 0 6)) 0) 5];
       index := 0 |}.

(** * Properties *)

Ltac run :=
  unfold bind, ret, raise, get, put, out_of_fuel, set_index; simpl.

Ltac case_binds :=
  repeat (match goal with
          | |- context [match ?x with _ => _ end] => destruct x eqn:?; simpl
          end; try done).

(** ** Reading: at most two chunks *)

Lemma chunk_at (st : ChunkedFileIO) c :
  chunks st !! index st = Some c → chunk st = (Return (index st), st).
Proof. intros Hc. unfold chunk. run. by rewrite Hc. Qed.

Lemma chunk_empty (st : ChunkedFileIO) :
  chunks st = [] → chunk st = (Raise IndexError, st).
Proof. intros He. unfold chunk. run. by rewrite He. Qed.

(** C10: with an empty chunk list, [read] and [tell] raise [IndexError];
    a first stream built from no source, or from empty sources only, has
    an empty chunk list. *)
Theorem empty_stream_raises_IndexError (paths : list (list byte)) (n : Z) :
  Forall (λ p, p = []) paths →
  chunks (built paths) = [] ∧
  (∀ st, chunks st = [] →
         ChunkedFileIO_read n st = (Raise IndexError, st) ∧
         ChunkedFileIO_tell st = (Raise IndexError, st)).
Proof.
  intros Hall. split.
  - unfold built, ChunkedFileIO_init. simpl.
    induction Hall as [|p ps Hp _ IH]; [done|]. subst p. simpl. exact IH.
  - intros st He. unfold ChunkedFileIO_read, ChunkedFileIO_tell, bind.
    by rewrite (chunk_empty st He).
Qed.

Lemma empty_stream_raises_IndexError_witness :
  chunks (built [[]; []]) = [] ∧
  ChunkedFileIO_read 4 (built [[]; []]) = (Raise IndexError, built [[]; []]).
Proof.
  destruct (empty_stream_raises_IndexError [[]; []] 4) as [H1 H2].
  - repeat constructor.
  - split; [exact H1|]. apply (H2 (built [[]; []])). exact H1.
Defined.

Lemma on_chunk_at {A} (m : M Chunk A) (st : ChunkedFileIO) i c :
  chunks st !! i = Some c →
  on_chunk i m st =
    (fst (m c), {| chunks := <[i := snd (m c)]> (chunks st); index := index st |}).
Proof. intros Hc. unfold on_chunk. rewrite Hc. by destruct (m c). Qed.

Lemma chunk_next_last (st : ChunkedFileIO) :
  (length (chunks st) ≤ index st + 1)%nat →
  chunk_next st = (Return None, st).
Proof.
  intros Hl. unfold chunk_next. run.
  by rewrite (proj2 (Nat.leb_le _ _) Hl).
Qed.

Lemma chunk_next_more (st : ChunkedFileIO) :
  (index st + 1 < length (chunks st))%nat →
  chunk_next st =
    (Return (Some (index st + 1)%nat),
     {| chunks := chunks st; index := (index st + 1)%nat |}).
Proof.
  intros Hl. unfold chunk_next. run.
  rewrite (proj2 (Nat.leb_gt _ _) Hl). unfold chunk. run.
  destruct (lookup_lt_is_Some_2 (chunks st) (index st + 1)%nat Hl) as [c Hc].
  by rewrite Hc.
Qed.

Lemma Chunk_read_eq (n : Z) (c : Chunk) :
  Chunk_read n c = (Return (read_data n c), read_chunk n c).
Proof. reflexivity. Qed.

(** What one [read] does, spelled out on the active chunk [c] and its
    successor. *)
Lemma ChunkedFileIO_read_cases (st : ChunkedFileIO) (n : Z) c :
  chunks st !! index st = Some c →
  let d1 := read_data n c in
  let l1 := <[index st := read_chunk n c]> (chunks st) in
  (d1 ≠ [] →
   ChunkedFileIO_read n st = (Return d1, {| chunks := l1; index := index st |})) ∧
  (d1 = [] → (length (chunks st) ≤ index st + 1)%nat →
   ChunkedFileIO_read n st = (Return [], {| chunks := l1; index := index st |})) ∧
  (d1 = [] → ∀ c2, chunks st !! (index st + 1)%nat = Some c2 →
   ChunkedFileIO_read n st =
     (Return (read_data n c2),
      {| chunks := <[(index st + 1)%nat := read_chunk n c2]> l1;
         index := (index st + 1)%nat |})).
Proof.
  intros Hc d1 l1.
  assert (Hread : ∀ k : list byte → M ChunkedFileIO (list byte),
            (c0 <- chunk ;; data <- on_chunk c0 (Chunk_read n) ;; k data) st
            = k d1 {| chunks := l1; index := index st |}).
  { intros k. unfold bind at 1. rewrite (chunk_at st c Hc).
    unfold bind at 1. by rewrite (on_chunk_at _ st _ c Hc). }
  unfold ChunkedFileIO_read. rewrite Hread. clear Hread.
  repeat split.
  - intros Hne. destruct d1; [done|reflexivity].
  - intros He Hl. rewrite He. unfold bind.
    rewrite chunk_next_last; [done|]. simpl. unfold l1.
    by rewrite length_insert.
  - intros He c2 Hc2. rewrite He. unfold bind.
    assert (Hlt : (index st + 1 < length (chunks st))%nat)
      by (by eapply lookup_lt_Some).
    rewrite chunk_next_more; [|simpl; unfold l1; by rewrite length_insert].
    simpl. rewrite (on_chunk_at _ _ _ c2); [done|]. simpl. unfold l1.
    rewrite list_lookup_insert_ne; [done|lia].
Qed.

(** C7: one [read] reads the active chunk; exactly when that gives no byte
    and a next chunk exists, the cursor moves to it and that chunk is read
    once, whatever it gives; no other chunk is touched. *)
Theorem read_touches_at_most_two_chunks (st : ChunkedFileIO) (n : Z) c :
  chunks st !! index st = Some c →
  ∃ data st',
    ChunkedFileIO_read n st = (Return data, st') ∧
    length (chunks st') = length (chunks st) ∧
    (∀ j, j ≠ index st → j ≠ Datatypes.S (index st) →
          chunks st' !! j = chunks st !! j) ∧
    chunks st' !! index st = Some (read_chunk n c) ∧
    (index st' = Datatypes.S (index st) ↔
       read_data n c = [] ∧
       (Datatypes.S (index st) < length (chunks st))%nat) ∧
    (index st' ≠ Datatypes.S (index st) →
       index st' = index st ∧ data = read_data n c ∧
       chunks st' !! Datatypes.S (index st) =
         chunks st !! Datatypes.S (index st)) ∧
    (index st' = Datatypes.S (index st) →
       ∃ c2, chunks st !! Datatypes.S (index st) = Some c2 ∧
             data = read_data n c2 ∧
             chunks st' !! Datatypes.S (index st) = Some (read_chunk n c2)).
Proof.
  intros Hc.
  destruct (ChunkedFileIO_read_cases st n c Hc) as (Hne & Hlast & Hnext).
  assert (Hi : (index st < length (chunks st))%nat) by (by eapply lookup_lt_Some).
  replace (Datatypes.S (index st)) with (index st + 1)%nat by lia.
  destruct (read_data n c) as [|b d] eqn:Hd.
  - destruct (chunks st !! (index st + 1)%nat) as [c2|] eqn:Hc2.
    + specialize (Hnext eq_refl c2 eq_refl).
      assert (Hlt : (index st + 1 < length (chunks st))%nat)
        by (by eapply lookup_lt_Some).
      eexists _, _. split; [exact Hnext|]. simpl.
      rewrite !length_insert. split; [done|]. split.
      { intros j H1 H2. by rewrite !list_lookup_insert_ne by lia. }
      split.
      { rewrite list_lookup_insert_ne by lia.
        by rewrite list_lookup_insert_eq. }
      split; [done|]. split; [done|].
      intros _. exists c2. split; [done|]. split; [done|].
      rewrite list_lookup_insert_eq; [done|by rewrite length_insert].
    + apply lookup_ge_None in Hc2.
      specialize (Hlast eq_refl Hc2).
      eexists _, _. split; [exact Hlast|]. simpl.
      rewrite length_insert. split; [done|]. split.
      { intros j H1 H2. by rewrite list_lookup_insert_ne by lia. }
      split; [by rewrite list_lookup_insert_eq|].
      split; [split; [lia|intros [_ ?]; lia]|].
      split; [|lia]. intros _. split; [done|]. split; [done|].
      apply lookup_ge_None. rewrite length_insert. lia.
  - assert (Hd' : b :: d ≠ []) by done.
    specialize (Hne Hd').
    eexists _, _. split; [exact Hne|]. simpl.
    rewrite length_insert. split; [done|]. split.
    { intros j H1 H2. by rewrite list_lookup_insert_ne by lia. }
    split; [by rewrite list_lookup_insert_eq|].
    split; [split; [lia|intros [? _]; done]|].
    split; [|lia]. intros _. split; [done|]. split; [done|].
    by rewrite list_lookup_insert_ne by lia.
Qed.

(** ** The layout invariant *)

Lemma ChunkedFileIO_init_loop_layout (paths : list (list byte)) :
  ∀ pos cs,
    ChunkedFileIO_init_loop pos paths cs = (Return tt, cs ++ layout pos paths).
Proof.
  induction paths as [|p ps IH]; intros pos cs; simpl.
  - unfold ret. by rewrite app_nil_r.
  - destruct (Z.of_nat (length p) =? 0); [apply IH|].
    run. rewrite IH. by rewrite <- app_assoc.
Qed.

Lemma built_layout (paths : list (list byte)) :
  chunks (built paths) = layout 0 paths.
Proof.
  unfold built, ChunkedFileIO_init.
  by rewrite ChunkedFileIO_init_loop_layout.
Qed.

Lemma layout_laid_out (paths : list (list byte)) :
  ∀ pos, laid_out pos (layout pos paths).
Proof.
  induction paths as [|p ps IH]; intros pos; simpl; [done|].
  destruct (Z.of_nat (length p) =? 0) eqn:Hz; [apply IH|].
  simpl. apply Z.eqb_neq in Hz. repeat split; try lia. apply IH.
Qed.

Lemma layout_nonempty (paths : list (list byte)) :
  Forall (λ p, p ≠ []) paths →
  ∀ pos i src,
    paths !! i = Some src →
    layout pos paths !! i
      = Some (Chunk_init src (pos + Z.of_nat (length (concat (take i paths))))).
Proof.
  induction 1 as [|p ps Hp _ IH]; intros pos i src Hi; [done|].
  simpl. destruct (Z.of_nat (length p) =? 0) eqn:Hz.
  { apply Z.eqb_eq in Hz. destruct p; [done|simpl in Hz; lia]. }
  destruct i as [|i]; simpl in *.
  - inversion Hi; subst. do 2 f_equal. lia.
  - rewrite (IH _ _ _ Hi). do 2 f_equal. rewrite length_app. lia.
Qed.

Lemma total_cons (c c' : Chunk) (l : list Chunk) :
  total (c :: c' :: l) = total (c' :: l).
Proof. reflexivity. Qed.

Lemma laid_out_total (l : list Chunk) :
  ∀ pos, laid_out pos l → pos ≤ total l ∨ l = [].
Proof.
  induction l as [|c l IH]; intros pos Hl; [by right|left].
  destruct Hl as (Hs & Hsz & Hpos & He & Hp & Hl).
  destruct l as [|c' l].
  - unfold total. simpl. lia.
  - rewrite total_cons. destruct (IH _ Hl) as [?|?]; [lia|done].
Qed.

Lemma laid_out_lookup (l : list Chunk) :
  ∀ pos i c,
    laid_out pos l → l !! i = Some c →
    size c = Z.of_nat (length (content (handle c))) ∧ 0 < size c ∧
    end_ c = start c + size c ∧ 0 ≤ position (handle c) ≤ size c ∧
    pos ≤ start c ∧ end_ c ≤ total l ∧ (i = 0%nat → start c = pos).
Proof.
  induction l as [|c0 l IH]; intros pos i c Hl Hi; [done|].
  destruct Hl as (Hs & Hsz & Hpos & He & Hp & Hl).
  destruct i as [|i]; simpl in Hi.
  - inversion Hi; subst c0. repeat split; try lia.
    destruct l as [|c' l]; [unfold total; simpl; lia|].
    rewrite total_cons. destruct (laid_out_total _ _ Hl); [lia|done].
  - destruct (IH _ _ _ Hl Hi) as (? & ? & ? & ? & ? & ? & _).
    repeat split; try lia.
    destruct l as [|c' l]; [done|]. by rewrite total_cons.
Qed.

(** Chunks further down the list lie further along the stream. *)
Lemma laid_out_order (l : list Chunk) :
  ∀ pos i j ci cj,
    laid_out pos l → l !! i = Some ci → l !! j = Some cj →
    (i < j)%nat → end_ ci ≤ start cj.
Proof.
  induction l as [|c0 l IH]; intros pos i j ci cj Hl Hi Hj Hij; [done|].
  destruct j as [|j]; [lia|]. simpl in Hj.
  destruct Hl as (Hs & Hsz & Hpos & He & Hp & Hl).
  destruct i as [|i]; simpl in Hi.
  - inversion Hi; subst c0.
    destruct (laid_out_lookup _ _ _ _ Hl Hj) as (_ & _ & _ & _ & ? & _). lia.
  - eapply IH; eauto. lia.
Qed.

Lemma laid_out_adjacent (l : list Chunk) :
  ∀ pos i ci cj,
    laid_out pos l → l !! i = Some ci → l !! Datatypes.S i = Some cj →
    start cj = end_ ci.
Proof.
  induction l as [|c0 l IH]; intros pos i ci cj Hl Hi Hj; [done|].
  destruct Hl as (Hs & Hsz & Hpos & He & Hp & Hl). simpl in Hj.
  destruct i as [|i]; simpl in Hi.
  - inversion Hi; subst c0.
    by destruct (laid_out_lookup _ _ _ _ Hl Hj) as (_ & _ & _ & _ & _ & _ & ->).
  - eapply IH; eauto.
Qed.

(** The chunk holding an offset is unique. *)
Lemma laid_out_unique (l : list Chunk) pos i j ci cj k :
  laid_out pos l → l !! i = Some ci → l !! j = Some cj →
  start ci ≤ k < end_ ci → start cj ≤ k < end_ cj → i = j.
Proof.
  intros Hl Hi Hj Hki Hkj.
  destruct (Nat.lt_trichotomy i j) as [Hlt|[Heq|Hgt]]; [|done|].
  - pose proof (laid_out_order _ _ _ _ _ _ Hl Hi Hj Hlt). lia.
  - pose proof (laid_out_order _ _ _ _ _ _ Hl Hj Hi Hgt). lia.
Qed.

(** Moving a handle inside its file keeps the layout. *)
Lemma laid_out_insert (l : list Chunk) :
  ∀ pos i c p,
    laid_out pos l → l !! i = Some c → 0 ≤ p ≤ size c →
    laid_out pos (<[i := set_position c p]> l).
Proof.
  induction l as [|c0 l IH]; intros pos i c p Hl Hi Hp; [done|].
  destruct Hl as (Hs & Hsz & Hpos & He & Hp0 & Hl).
  destruct i as [|i]; simpl in *.
  - inversion Hi; subst c0. repeat split; try done; lia.
  - repeat split; try done; try lia. by apply IH.
Qed.

Lemma total_insert (l : list Chunk) :
  ∀ i c p, l !! i = Some c → total (<[i := set_position c p]> l) = total l.
Proof.
  induction l as [|c0 l IH]; intros i c p Hi; [done|].
  destruct i as [|i]; simpl in *.
  - inversion Hi; subst c0. by destruct l.
  - destruct l as [|c1 l]; [done|].
    specialize (IH i c p Hi).
    destruct i; simpl in *; rewrite !total_cons; exact IH.
Qed.

(** The scan of [chunk_find]: it stops at the first chunk ending at or
    after [pos], or runs to the last chunk. *)
Lemma chunk_find_loop_spec (l : list Chunk) :
  ∀ p pos cur i,
    laid_out p l → l ≠ [] →
    ∃ j c, chunk_find_loop pos cur i l = (i + j)%nat ∧ l !! j = Some c ∧
      ((pos ≤ end_ c ∧ (p ≤ pos → start c ≤ pos) ∧ (pos < p → start c = p)) ∨
       (end_ c < pos ∧ end_ c = total l)).
Proof.
  induction l as [|c0 l IH]; intros p pos cur i Hl Hne; [done|].
  destruct Hl as (Hs & Hsz & Hpos & He & Hp0 & Hl). simpl.
  destruct (end_ c0 >=? pos) eqn:Hge.
  - exists 0%nat, c0. apply Z.geb_le in Hge.
    split; [lia|]. split; [done|]. left. lia.
  - rewrite Z.geb_leb in Hge. apply Z.leb_gt in Hge.
    destruct l as [|c1 l].
    + exists 0%nat, c0. simpl. split; [lia|]. split; [done|]. right.
      split; [lia|done].
    + destruct (IH (end_ c0) pos i (Datatypes.S i) Hl) as (j & c & Hf & Hj & Hc);
        [done|].
      exists (Datatypes.S j), c. rewrite Hf. split; [lia|]. split; [done|].
      rewrite total_cons. destruct Hc as [(? & ? & ?)|?]; [left|by right].
      split; [done|]. split; [lia|lia].
Qed.

(** ** Seeking *)

Lemma set_handle_id (c : Chunk) : set_handle c (handle c) = c.
Proof. by destruct c. Qed.

Lemma Chunk_seek_inside (c : Chunk) (pos : Z) :
  0 ≤ pos - start c ≤ size c →
  Chunk_seek pos c = (Return tt, set_position c (pos - start c)).
Proof.
  intros Hr. unfold Chunk_seek. run.
  destruct (pos - start c <? 0) eqn:H1; [apply Z.ltb_lt in H1; lia|].
  destruct (pos - start c >? size c) eqn:H2;
    [rewrite Z.gtb_ltb in H2; apply Z.ltb_lt in H2; lia|].
  simpl. unfold on_handle, Handle_seek. simpl. by rewrite H1.
Qed.

Lemma Chunk_seek_outside (c : Chunk) (pos : Z) :
  pos - start c < 0 ∨ size c < pos - start c →
  Chunk_seek pos c = (Raise (ValueError_offset (pos - start c)), c).
Proof.
  intros Hr. unfold Chunk_seek. run.
  destruct (pos - start c <? 0) eqn:H1; [done|]. apply Z.ltb_ge in H1.
  destruct (pos - start c >? size c) eqn:H2; [done|].
  rewrite Z.gtb_ltb in H2. apply Z.ltb_ge in H2. lia.
Qed.

Lemma chunk_find_eq (st : ChunkedFileIO) (pos : Z) :
  chunks st ≠ [] →
  chunk_find pos st =
    (Return (chunk_find_loop pos (index st) 0 (chunks st)),
     {| chunks := chunks st;
        index := chunk_find_loop pos (index st) 0 (chunks st) |}).
Proof.
  intros Hne. destruct st as [l i]. simpl in *.
  unfold chunk_find. run. by destruct l.
Qed.

(** [seek] resolves the position, selects a chunk, makes it the active
    one and seeks inside it. *)
Lemma ChunkedFileIO_seek_eq (st : ChunkedFileIO) (offset whence pos : Z) :
  is_Some (chunks st !! index st) →
  resolve st offset whence = Some pos →
  ChunkedFileIO_seek offset whence st =
    on_chunk (seek_target st pos) (Chunk_seek pos)
      {| chunks := chunks st; index := seek_target st pos |}.
Proof.
  intros [c0 Hc0] Hres.
  assert (Hne : chunks st ≠ []) by (intros He; by rewrite He in Hc0).
  assert (Hsel : ∀ k : nat → M ChunkedFileIO unit,
    (st' <- get ;;
     c <- (match chunks st' !! index st with
           | Some ch => if (pos <? start ch) || (pos >? end_ ch)
                        then chunk_find pos else ret (index st)
           | None => raise IndexError
           end) ;; k c) st
    = k (seek_target st pos)
        {| chunks := chunks st; index := seek_target st pos |}).
  { intros k. unfold seek_target. run. rewrite Hc0.
    destruct ((pos <? start c0) || (pos >? end_ c0)).
    - by rewrite chunk_find_eq.
    - by destruct st. }
  unfold ChunkedFileIO_seek. unfold bind at 1. rewrite (chunk_at st c0 Hc0).
  unfold resolve in Hres.
  destruct (whence =? whence_CUR).
  - rewrite Hc0 in Hres. simpl in Hres. inversion Hres; subst pos.
    unfold bind at 1. unfold bind at 1.
    rewrite (on_chunk_at _ st _ c0 Hc0). simpl.
    rewrite set_handle_id, list_insert_id by done.
    replace {| chunks := chunks st; index := index st |} with st
      by (by destruct st).
    unfold ret at 1. apply Hsel.
  - destruct (whence =? whence_END).
    + inversion Hres; subst pos. unfold total in *.
      unfold bind at 1. unfold bind at 1. unfold get at 1.
      destruct (last (chunks st)) as [cl|] eqn:Hlast.
      * unfold ret at 1. apply Hsel.
      * apply last_None in Hlast. done.
    + destruct (whence =? whence_SET); [|done].
      inversion Hres; subst pos. simpl.
      unfold bind at 1. unfold ret at 1. apply Hsel.
Qed.

(** Inside the stream the selected chunk holds the position; outside, the
    position is beyond the selected chunk. *)
Lemma seek_target_spec (st : ChunkedFileIO) (pos : Z) :
  wf st →
  ∃ c, chunks st !! seek_target st pos = Some c ∧
       (0 ≤ pos ≤ total (chunks st) → start c ≤ pos ≤ end_ c) ∧
       (pos < 0 ∨ total (chunks st) < pos →
        pos - start c < 0 ∨ size c < pos - start c).
Proof.
  intros [Hl Hi].
  destruct (lookup_lt_is_Some_2 _ _ Hi) as [c0 Hc0].
  assert (Hne : chunks st ≠ []) by (intros He; by rewrite He in Hc0).
  unfold seek_target. rewrite Hc0.
  destruct ((pos <? start c0) || (pos >? end_ c0)) eqn:Hout.
  - destruct (chunk_find_loop_spec _ 0 pos (index st) 0%nat Hl Hne)
      as (j & c & -> & Hj & Hc).
    exists c. split; [done|].
    destruct (laid_out_lookup _ _ _ _ Hl Hj) as (? & ? & ? & ? & ? & ? & ?).
    destruct Hc as [(? & ? & ?)|[? ?]]; split; lia.
  - exists c0. split; [done|].
    apply orb_false_elim in Hout as [H1 H2].
    apply Z.ltb_ge in H1. rewrite Z.gtb_ltb in H2. apply Z.ltb_ge in H2.
    destruct (laid_out_lookup _ _ _ _ Hl Hc0) as (? & ? & ? & ? & ? & ? & ?).
    split; lia.
Qed.

Lemma ChunkedFileIO_tell_at (st : ChunkedFileIO) c :
  chunks st !! index st = Some c →
  ChunkedFileIO_tell st = (Return (start c + position (handle c)), st).
Proof.
  intros Hc. unfold ChunkedFileIO_tell. unfold bind.
  rewrite (chunk_at st c Hc). rewrite (on_chunk_at _ st _ c Hc). simpl.
  rewrite set_handle_id, list_insert_id by done. by destruct st.
Qed.

(** Seeking to a position inside the stream. *)
Lemma seek_inside (st : ChunkedFileIO) (offset whence pos : Z) :
  wf st → resolve st offset whence = Some pos →
  0 ≤ pos ≤ total (chunks st) →
  ∃ c, chunks st !! seek_target st pos = Some c ∧ start c ≤ pos ≤ end_ c ∧
    let st' := {| chunks := <[seek_target st pos := set_position c (pos - start c)]>
                              (chunks st);
                  index := seek_target st pos |} in
    ChunkedFileIO_seek offset whence st = (Return tt, st') ∧
    ChunkedFileIO_tell st' = (Return pos, st') ∧ wf st'.
Proof.
  intros Hwf Hres Hpos.
  destruct (seek_target_spec st pos Hwf) as (c & Hc & Hin & _).
  specialize (Hin Hpos). destruct Hwf as [Hl Hi].
  destruct (laid_out_lookup _ _ _ _ Hl Hc) as (? & ? & ? & ? & ? & ? & ?).
  exists c. split; [done|]. split; [done|]. simpl.
  assert (Ht : (seek_target st pos < length (chunks st))%nat)
    by (by eapply lookup_lt_Some).
  split; [|split].
  - rewrite (ChunkedFileIO_seek_eq st offset whence pos);
      [|by apply lookup_lt_is_Some_2|done].
    rewrite (on_chunk_at _ _ _ c) by done.
    by rewrite Chunk_seek_inside by lia.
  - rewrite (ChunkedFileIO_tell_at _ (set_position c (pos - start c))).
    + simpl. do 2 f_equal. lia.
    + simpl. by rewrite list_lookup_insert_eq.
  - split; simpl.
    + apply laid_out_insert; [done|done|lia].
    + by rewrite length_insert.
Qed.

(** Seeking to a position outside the stream. *)
Lemma seek_outside (st : ChunkedFileIO) (offset whence pos : Z) :
  wf st → resolve st offset whence = Some pos →
  pos < 0 ∨ total (chunks st) < pos →
  ∃ off, ChunkedFileIO_seek offset whence st =
           (Raise (ValueError_offset off),
            {| chunks := chunks st; index := seek_target st pos |}).
Proof.
  intros Hwf Hres Hpos.
  destruct (seek_target_spec st pos Hwf) as (c & Hc & _ & Hout).
  specialize (Hout Hpos). destruct Hwf as [Hl Hi].
  exists (pos - start c).
  rewrite (ChunkedFileIO_seek_eq st offset whence pos);
    [|by apply lookup_lt_is_Some_2|done].
  rewrite (on_chunk_at _ _ _ c) by done.
  rewrite Chunk_seek_outside by done. simpl.
  by rewrite list_insert_id.
Qed.

Lemma layout_empty (paths : list (list byte)) :
  ∀ pos, layout pos paths = [] → concat paths = [].
Proof.
  induction paths as [|p ps IH]; intros pos He; [done|]. simpl in *.
  destruct (Z.of_nat (length p) =? 0) eqn:Hz; [|done].
  apply Z.eqb_eq in Hz. destruct p; [|simpl in Hz; lia].
  simpl. by eapply IH.
Qed.

Lemma total_layout (paths : list (list byte)) :
  ∀ pos, layout pos paths ≠ [] →
         total (layout pos paths) = pos + Z.of_nat (length (concat paths)).
Proof.
  induction paths as [|p ps IH]; intros pos Hne; [done|]. simpl in *.
  rewrite length_app.
  destruct (Z.of_nat (length p) =? 0) eqn:Hz.
  - apply Z.eqb_eq in Hz. rewrite (IH pos Hne). lia.
  - destruct (layout (pos + Z.of_nat (length p)) ps) as [|c l] eqn:Hl.
    + rewrite (layout_empty _ _ Hl). unfold total. simpl. lia.
    + rewrite total_cons, <- Hl. rewrite IH; [lia|]. by rewrite Hl.
Qed.

Lemma built_wf (paths : list (list byte)) :
  concat paths ≠ [] →
  wf (built paths) ∧
  total (chunks (built paths)) = Z.of_nat (length (concat paths)).
Proof.
  intros Hne.
  assert (Hl : layout 0 paths ≠ [])
    by (intros He; by apply layout_empty in He).
  rewrite built_layout. split; [split|].
  - rewrite built_layout. apply layout_laid_out.
  - rewrite built_layout. simpl. destruct (layout 0 paths); [done|simpl; lia].
  - by rewrite total_layout.
Qed.

(** C8 (amended): on a stream with at least one chunk, a seek whose
    resolved position lies in [0, total] succeeds and [tell] then returns
    that position; a seek resolved below 0 or above the total raises the
    out-of-range [ValueError]. *)
Theorem seek_in_range_iff (st : ChunkedFileIO) (offset whence pos : Z) :
  wf st → resolve st offset whence = Some pos →
  (0 ≤ pos ≤ total (chunks st) →
   ∃ st', ChunkedFileIO_seek offset whence st = (Return tt, st') ∧
          ChunkedFileIO_tell st' = (Return pos, st') ∧ wf st') ∧
  (pos < 0 ∨ total (chunks st) < pos →
   ∃ off st', ChunkedFileIO_seek offset whence st
                = (Raise (ValueError_offset off), st') ∧
              chunks st' = chunks st).
Proof.
  intros Hwf Hres. split; intros Hpos.
  - destruct (seek_inside st offset whence pos Hwf Hres Hpos)
      as (c & _ & _ & Hs & Ht & Hw).
    eauto.
  - destruct (seek_outside st offset whence pos Hwf Hres Hpos) as (off & Hs).
    eauto.
Qed.

(** C8 as stated fails on the stream without chunks: its total is 0 and
    seeking to 0 raises [IndexError]. *)
Lemma seek_empty_stream_counterexample :
  0 ≤ 0 ≤ total (chunks (built [])) ∧
  ChunkedFileIO_seek 0 whence_SET (built []) = (Raise IndexError, built []).
Proof. split; [done|reflexivity]. Qed.

(** ** Seeking, then reading *)

Lemma py_slice_nonempty (data : list byte) (off n : Z) :
  0 ≤ off < Z.of_nat (length data) → n ≠ 0 → py_slice data off n ≠ [].
Proof.
  intros Hoff Hn. unfold py_slice.
  assert (Hd : (0 < length (drop (Z.to_nat off) data))%nat)
    by (rewrite length_drop; lia).
  destruct (n <? 0) eqn:Hneg.
  - intros He. rewrite He in Hd. simpl in Hd. lia.
  - apply Z.ltb_ge in Hneg. intros He.
    apply (f_equal length) in He. rewrite length_take in He.
    simpl in He. lia.
Qed.

Lemma py_slice_at_end (data : list byte) (off n : Z) :
  Z.of_nat (length data) ≤ off → py_slice data off n = [].
Proof.
  intros Hoff. unfold py_slice.
  rewrite drop_ge by lia. by destruct (n <? 0); [|rewrite take_nil].
Qed.

Lemma read_data_set_position (c : Chunk) (p n : Z) :
  read_data n (set_position c p) = py_slice (content (handle c)) p n.
Proof. reflexivity. Qed.

(** After a seek to [k], a read of [n ≠ 0] bytes ends on the chunk [i]
    holding [k] and returns what the handle of that chunk gives.  The seek
    has set that handle to [k], except when [k] is the first byte of chunk
    [i] and the seek stopped at the end of the chunk before it: then the
    handle of chunk [i] is where earlier calls left it. *)
Lemma seek_then_read_any (st : ChunkedFileIO) (k n : Z) (i : nat) (c : Chunk) :
  wf st → chunks st !! i = Some c → start c ≤ k < end_ c → n ≠ 0 →
  ∃ st1 st2 c1,
    ChunkedFileIO_seek k whence_SET st = (Return tt, st1) ∧
    ChunkedFileIO_tell st1 = (Return k, st1) ∧
    chunks st1 !! i = Some c1 ∧
    (c1 = set_position c (k - start c) ∨
     (c1 = c ∧ k = start c ∧ index st ≠ i)) ∧
    ChunkedFileIO_read n st1 = (Return (read_data n c1), st2) ∧
    index st2 = i.
Proof.
  intros Hwf Hi Hk Hn.
  pose proof Hwf as [Hl Hidx].
  destruct (laid_out_lookup _ _ _ _ Hl Hi) as (Hsz & ? & He & ? & ? & Htot & _).
  assert (Hres : resolve st k whence_SET = Some k) by reflexivity.
  destruct (seek_inside st k whence_SET k Hwf Hres)
    as (ca & Ha & Hka & Hseek & Htell & Hwf1); [lia|].
  simpl in Hseek, Htell, Hwf1.
  set (a := seek_target st k) in *.
  set (st1 := {| chunks := <[a := set_position ca (k - start ca)]> (chunks st);
                 index := a |}) in *.
  destruct (laid_out_lookup _ _ _ _ Hl Ha) as (Hsza & ? & Hea & ? & ? & _ & _).
  assert (Halt : (a < length (chunks st))%nat) by (by eapply lookup_lt_Some).
  assert (Hact : chunks st1 !! index st1 = Some (set_position ca (k - start ca)))
    by (simpl; by rewrite list_lookup_insert_eq).
  destruct (ChunkedFileIO_read_cases st1 n _ Hact) as (Hr1 & _ & Hr3).
  exists st1. destruct (decide (k < end_ ca)) as [Hlt|Hge].
  - assert (a = i) as Hai
      by (eapply (laid_out_unique _ _ a i ca c k); eauto; lia).
    subst i. assert (ca = c) by congruence. subst ca.
    eexists _, _. split; [done|]. split; [done|].
    split; [exact Hact|]. split; [by left|].
    split; [apply Hr1|reflexivity]. rewrite read_data_set_position.
    apply py_slice_nonempty; [lia|done].
  - assert (Hke : k = end_ ca) by lia.
    assert (Hai : i = Datatypes.S a).
    { destruct (Nat.lt_trichotomy i a) as [Hlt|[Heq|Hgt]].
      - pose proof (laid_out_order _ _ _ _ _ _ Hl Hi Ha Hlt). lia.
      - subst i. assert (ca = c) by congruence. subst ca. lia.
      - destruct (decide (i = Datatypes.S a)) as [|Hnext]; [done|].
        assert (Hsa : (Datatypes.S a < length (chunks st))%nat)
          by (apply lookup_lt_Some in Hi; lia).
        destruct (lookup_lt_is_Some_2 _ _ Hsa) as [cn Hcn].
        pose proof (laid_out_adjacent _ _ _ _ _ Hl Ha Hcn).
        destruct (laid_out_lookup _ _ _ _ Hl Hcn) as (_ & ? & ? & _).
        assert (Hlt' : (Datatypes.S a < i)%nat) by lia.
        pose proof (laid_out_order _ _ _ _ _ _ Hl Hcn Hi Hlt'). lia. }
    subst i.
    pose proof (laid_out_adjacent _ _ _ _ _ Hl Ha Hi) as Hadj.
    assert (Hix : index st ≠ Datatypes.S a).
    { intros Hix.
      assert (Hsel : seek_target st k = index st).
      { unfold seek_target. rewrite Hix, Hi.
        destruct (k <? start c) eqn:Hb1; [apply Z.ltb_lt in Hb1; lia|].
        destruct (k >? end_ c) eqn:Hb2; [|done].
        rewrite Z.gtb_ltb in Hb2. apply Z.ltb_lt in Hb2. lia. }
      fold a in Hsel. lia. }
    assert (Hc2 : chunks st1 !! (index st1 + 1)%nat = Some c).
    { simpl. rewrite list_lookup_insert_ne by lia.
      by replace (a + 1)%nat with (Datatypes.S a) by lia. }
    assert (Hend : read_data n (set_position ca (k - start ca)) = [])
      by (rewrite read_data_set_position; apply py_slice_at_end; lia).
    specialize (Hr3 Hend c Hc2).
    eexists _, c. split; [done|]. split; [done|].
    split; [by replace (Datatypes.S a) with (index st1 + 1)%nat by (simpl; lia)|].
    split; [right; split; [done|split; [lia|done]]|].
    split; [exact Hr3|simpl; lia].
Qed.

(** When the chunk holding [k] is not left with a stale handle (it is the
    active one, or [k] lies past its first byte, or its handle rests at 0)
    the bytes read are those of the chunk from [k] on. *)
Lemma seek_then_read (st : ChunkedFileIO) (k n : Z) (i : nat) (c : Chunk) :
  wf st → chunks st !! i = Some c → start c ≤ k < end_ c → n ≠ 0 →
  index st = i ∨ start c < k ∨ position (handle c) = 0 →
  ∃ st1 st2,
    ChunkedFileIO_seek k whence_SET st = (Return tt, st1) ∧
    ChunkedFileIO_tell st1 = (Return k, st1) ∧
    ChunkedFileIO_read n st1
      = (Return (py_slice (content (handle c)) (k - start c) n), st2) ∧
    index st2 = i ∧
    py_slice (content (handle c)) (k - start c) n ≠ [].
Proof.
  intros Hwf Hi Hk Hn Hfresh.
  destruct (seek_then_read_any st k n i c Hwf Hi Hk Hn)
    as (st1 & st2 & c1 & Hseek & Htell & _ & Hc1 & Hread & Hidx).
  destruct Hwf as [Hl _].
  destruct (laid_out_lookup _ _ _ _ Hl Hi) as (Hsz & ? & He & ? & ? & _).
  assert (Hdata : read_data n c1 = py_slice (content (handle c)) (k - start c) n).
  { destruct Hc1 as [-> |(-> & Hks & Hne)]; [done|].
    unfold read_data. destruct Hfresh as [?|[?| ->]]; [done|lia|].
    f_equal. lia. }
  rewrite Hdata in Hread. exists st1, st2.
  repeat (split; [done|]). apply py_slice_nonempty; [lia|done].
Qed.

(** X24: on the first stream built from non-empty sources no handle is
    stale: after [seek(k)] with [k] inside source [i] (its first byte
    included), [tell] returns [k] and the next read of [n ≠ 0] bytes
    returns the bytes of source [i] from [k] on, at least one, and leaves
    the cursor on chunk [i]. *)
Theorem seek_tell_read_built (paths : list (list byte)) (i : nat)
    (src : list byte) (k n : Z) :
  Forall (λ p, p ≠ []) paths → paths !! i = Some src →
  let before := Z.of_nat (length (concat (take i paths))) in
  before ≤ k < before + Z.of_nat (length src) → n ≠ 0 →
  ∃ st1 st2,
    ChunkedFileIO_seek k whence_SET (built paths) = (Return tt, st1) ∧
    ChunkedFileIO_tell st1 = (Return k, st1) ∧
    ChunkedFileIO_read n st1 = (Return (py_slice src (k - before) n), st2) ∧
    index st2 = i ∧
    py_slice src (k - before) n ≠ [].
Proof.
  intros Hall Hi before Hk Hn.
  assert (Hc : chunks (built paths) !! i = Some (Chunk_init src before)).
  { rewrite built_layout, (layout_nonempty paths Hall 0 i src Hi).
    do 2 f_equal. }
  assert (Hne : concat paths ≠ []).
  { intros He. apply (f_equal length) in He. simpl in He.
    rewrite <- (take_drop_middle _ _ _ Hi) in He.
    rewrite concat_app, length_app in He. simpl in He.
    rewrite length_app in He. lia. }
  destruct (built_wf paths Hne) as [Hwf _].
  destruct (seek_then_read (built paths) k n i _ Hwf Hc) as (st1 & st2 & H);
    [simpl; lia|done|by right; right|].
  exists st1, st2. exact H.
Qed.

(** Reading keeps the layout: every state reached from a built stream by
    reads and successful seeks is well formed. *)
Lemma read_chunk_laid_out (l : list Chunk) (pos n : Z) (i : nat) (c : Chunk) :
  laid_out pos l → l !! i = Some c →
  laid_out pos (<[i := read_chunk n c]> l) ∧
  total (<[i := read_chunk n c]> l) = total l.
Proof.
  intros Hl Hi.
  destruct (laid_out_lookup _ _ _ _ Hl Hi) as (Hsz & ? & He & ? & ? & _).
  assert (Hlen : Z.of_nat (length (read_data n c))
                 ≤ size c - position (handle c)).
  { unfold read_data, py_slice.
    destruct (n <? 0); [|rewrite length_take]; rewrite length_drop; lia. }
  change (read_chunk n c)
    with (set_position c (position (handle c) + Z.of_nat (length (read_data n c)))).
  split; [apply laid_out_insert; [done|done|lia]|by apply total_insert].
Qed.

Lemma ChunkedFileIO_read_wf (st : ChunkedFileIO) (n : Z) :
  wf st →
  ∃ data st', ChunkedFileIO_read n st = (Return data, st') ∧ wf st' ∧
              total (chunks st') = total (chunks st).
Proof.
  intros [Hl Hi].
  destruct (lookup_lt_is_Some_2 _ _ Hi) as [c Hc].
  destruct (ChunkedFileIO_read_cases st n c Hc) as (Hne & Hlast & Hnext).
  destruct (read_chunk_laid_out _ 0 n _ c Hl Hc) as [Hl1 Ht1].
  destruct (read_data n c) as [|b d] eqn:Hd.
  - destruct (chunks st !! (index st + 1)%nat) as [c2|] eqn:Hc2.
    + eexists _, _. split; [exact (Hnext eq_refl c2 eq_refl)|].
      assert (Hc2' : <[index st := read_chunk n c]> (chunks st)
                       !! (index st + 1)%nat = Some c2)
        by (by rewrite list_lookup_insert_ne by lia).
      destruct (read_chunk_laid_out _ 0 n _ c2 Hl1 Hc2') as [Hl2 Ht2].
      apply lookup_lt_Some in Hc2.
      split; [split; simpl; [done|by rewrite !length_insert]|].
      simpl. by rewrite Ht2.
    + apply lookup_ge_None in Hc2.
      eexists _, _. split; [exact (Hlast eq_refl Hc2)|].
      split; [split; simpl; [done|by rewrite length_insert]|done].
  - eexists _, _. split; [apply Hne; done|].
    split; [split; simpl; [done|by rewrite length_insert]|done].
Qed.

(** ** Alignment *)

Lemma align_target (pos pad : Z) :
  0 < pad →
  let newpos := (pos + pad - 1) / pad * pad in
  (pad | newpos) ∧ pos ≤ newpos < pos + pad ∧
  (∀ m, (pad | m) → pos ≤ m → newpos ≤ m).
Proof.
  intros Hpad newpos.
  pose proof (Z.div_mod (pos + pad - 1) pad ltac:(lia)) as Hdm.
  pose proof (Z.mod_pos_bound (pos + pad - 1) pad Hpad) as Hb.
  assert (Hnew : newpos = pos + pad - 1 - (pos + pad - 1) mod pad)
    by (unfold newpos; lia).
  split; [by apply Z.divide_factor_r|]. split; [lia|].
  intros m [q ->] Hm. unfold newpos.
  apply Z.mul_le_mono_nonneg_r; [lia|].
  assert ((pos + pad - 1) / pad < q + 1); [|lia].
  apply Z.div_lt_upper_bound; nia.
Qed.

Lemma align_eq {S} `{Stream S} (r : BinaryReader S) (pad pos : Z) :
  file_tell (file r) = (Return pos, file r) → pad ≠ 0 →
  align pad r =
    if (pos + pad - 1) / pad * pad =? pos then (Return tt, r)
    else seek ((pos + pad - 1) / pad * pad) whence_SET r.
Proof.
  intros Ht Hpad. unfold align, tell, on_file, bind. rewrite Ht.
  destruct r as [f b]. simpl.
  destruct (pad =? 0) eqn:Hz; [apply Z.eqb_eq in Hz; done|].
  by destruct ((pos + pad - 1) / pad * pad =? pos).
Qed.

(** C9 (amended): [align(pad)] on a reader over a chunk stream at position
    [pos]: the target is the least multiple of [pad] that is at least
    [pos]; at a multiple nothing is done; otherwise the whole effect is
    one seek to the target.  When the target lies within the stream the
    seek succeeds and [tell] returns the target; when it lies beyond the
    total the seek raises the out-of-range [ValueError]. *)
Theorem align_seeks_to_next_multiple
    (r : BinaryReader ChunkedFileIO) (pad pos : Z) :
  wf (file r) → ChunkedFileIO_tell (file r) = (Return pos, file r) →
  0 < pad →
  let newpos := (pos + pad - 1) / pad * pad in
  ((pad | newpos) ∧ pos ≤ newpos ∧ (∀ m, (pad | m) → pos ≤ m → newpos ≤ m)) ∧
  ((pad | pos) → align pad r = (Return tt, r)) ∧
  (¬ (pad | pos) → align pad r = seek newpos whence_SET r) ∧
  (newpos ≤ total (chunks (file r)) →
   ∃ r', align pad r = (Return tt, r') ∧ tell r' = (Return newpos, r') ∧
         be r' = be r ∧ wf (file r')) ∧
  (total (chunks (file r)) < newpos →
   ∃ off r', align pad r = (Raise (ValueError_offset off), r') ∧
             chunks (file r') = chunks (file r) ∧ be r' = be r).
Proof.
  intros Hwf Ht Hpad newpos.
  destruct (align_target pos pad Hpad) as (Hdiv & Hrange & Hleast).
  fold newpos in Hdiv, Hrange, Hleast.
  pose proof (align_eq r pad pos Ht ltac:(lia)) as Ha. fold newpos in Ha.
  assert (Hpos : 0 ≤ pos ≤ total (chunks (file r))).
  { destruct Hwf as [Hl Hi].
    destruct (lookup_lt_is_Some_2 _ _ Hi) as [c Hc].
    rewrite (ChunkedFileIO_tell_at _ c Hc) in Ht.
    destruct (laid_out_lookup _ _ _ _ Hl Hc) as (_ & _ & ? & ? & ? & ? & _).
    inversion Ht. lia. }
  split; [split; [done|split; [lia|done]]|]. split; [|split; [|split]].
  - intros Hd. rewrite Ha.
    assert (newpos = pos) as -> by (specialize (Hleast pos Hd); lia).
    by rewrite Z.eqb_refl.
  - intros Hd. rewrite Ha.
    destruct (newpos =? pos) eqn:He; [|done].
    apply Z.eqb_eq in He. by rewrite <- He in Hd.
  - intros Htot. rewrite Ha. destruct (newpos =? pos) eqn:He.
    + apply Z.eqb_eq in He. exists r. rewrite He.
      split; [done|]. split; [|done].
      unfold tell, on_file. cbn [file_tell ChunkedFileIO_Stream].
      rewrite Ht. by destruct r.
    + destruct (seek_inside (file r) newpos whence_SET newpos Hwf eq_refl)
        as (c & _ & _ & Hs & Ht' & Hwf'); [lia|].
      simpl in Hs, Ht', Hwf'.
      eexists {| file := _; be := be r |}.
      unfold seek, tell, on_file.
      cbn [file_tell file_seek ChunkedFileIO_Stream file].
      rewrite Hs. cbn [file]. by rewrite Ht'.
  - intros Htot. rewrite Ha.
    destruct (newpos =? pos) eqn:He; [apply Z.eqb_eq in He; lia|].
    destruct (seek_outside (file r) newpos whence_SET newpos Hwf eq_refl)
      as (off & Hs); [lia|].
    exists off. eexists {| file := _; be := be r |}.
    unfold seek, on_file. cbn [file_seek ChunkedFileIO_Stream].
    rewrite Hs. done.
Qed.

(** C9 as stated fails on a stream that ends before the target: on a
    six-byte stream at position 5, [align(4)] seeks to 8 and the seek
    raises; the position stays 5. *)
Lemma align_beyond_end_counterexample :
  tell short_reader_at_5 = (Return 5, short_reader_at_5) ∧
  align 4 short_reader_at_5 = (Raise (ValueError_offset 8), short_reader_at_5).
Proof. split; reflexivity. Qed.

(** X23: on a plain file [align] always succeeds: the handle ends on the
    least multiple of [pad] at or after its position, its content
    untouched. *)
Lemma align_plain_file (r : BinaryReader Handle) (pad : Z) :
  0 < pad → 0 ≤ position (file r) →
  let newpos := (position (file r) + pad - 1) / pad * pad in
  align pad r =
    (Return tt,
     {| file := {| content := content (file r); position := newpos |};
        be := be r |}).
Proof.
  intros Hpad Hpos newpos.
  destruct (align_target (position (file r)) pad Hpad) as (_ & Hrange & _).
  fold newpos in Hrange.
  rewrite (align_eq r pad (position (file r))); [|done|lia]. fold newpos.
  destruct r as [[d p] b]. simpl in *.
  destruct (newpos =? p) eqn:He; [apply Z.eqb_eq in He; by rewrite He|].
  unfold seek, on_file. simpl. unfold Handle_seek. simpl.
  destruct (newpos <? 0) eqn:Hn; [apply Z.ltb_lt in Hn; lia|done].
Qed.

(** ** The primitive reads on a plain file *)

Lemma advance_0 (r : BinaryReader Handle) : advance r 0 = r.
Proof.
  destruct r as [[d p] b]. unfold advance. simpl. by rewrite Z.add_0_r.
Qed.

Lemma advance_advance (r : BinaryReader Handle) (n m : nat) :
  advance (advance r n) m = advance r (n + m).
Proof. unfold advance. simpl. do 2 f_equal. lia. Qed.

Lemma remaining_advance (r : BinaryReader Handle) (n : nat) :
  0 ≤ position (file r) →
  remaining (file (advance r n)) = drop n (remaining (file r)).
Proof.
  intros Hp. unfold remaining. simpl. rewrite drop_drop. f_equal. lia.
Qed.

Lemma read_plain_file (r : BinaryReader Handle) (n : Z) :
  0 ≤ n →
  on_file (file_read n) r =
    (Return (take (Z.to_nat n) (remaining (file r))),
     advance r (length (take (Z.to_nat n) (remaining (file r))))).
Proof.
  intros Hn. unfold on_file. simpl. unfold Handle_read.
  by destruct (n <? 0) eqn:Hneg; [apply Z.ltb_lt in Hneg; lia|].
Qed.

Lemma read_int8_eof (r : BinaryReader Handle) :
  remaining (file r) = [] → read_int8 r = (Return None, r).
Proof.
  intros He. unfold read_int8, bind. rewrite read_plain_file by lia.
  rewrite He. simpl. unfold ret. by rewrite advance_0.
Qed.

Lemma read_int8_byte (r : BinaryReader Handle) (b : byte) (rest : list byte) :
  remaining (file r) = b :: rest →
  read_int8 r = (Return (Some (byte_val b)), advance r 1).
Proof.
  intros He. unfold read_int8, bind. rewrite read_plain_file by lia.
  by rewrite He.
Qed.

(** A read that returns fewer bytes than the format needs makes
    [struct.unpack] raise, on any stream. *)
Lemma read_int_short {S} `{Stream S} (r : BinaryReader S) (t : IntType)
    (data : list byte) (f' : S) :
  file_read (calcsize t) (file r) = (Return data, f') →
  Z.of_nat (length data) < calcsize t →
  read_int t r = (Raise StructError, {| file := f'; be := be r |}).
Proof.
  intros Hr Hlen. unfold read_int, read_struct, bind, get, on_file.
  rewrite Hr. unfold unpack.
  by destruct (Z.of_nat (length data) =? calcsize t) eqn:He;
    [apply Z.eqb_eq in He; lia|].
Qed.

(** On a plain file with fewer bytes left than the width, each of the
    16-, 32- and 64-bit reads, signed or unsigned, raises the [struct]
    error (the bytes that were there are consumed); the 8-bit read
    returns [None] when no byte is left. *)
Lemma short_read_plain_file (r : BinaryReader Handle) (t : IntType) :
  Z.of_nat (length (remaining (file r))) < calcsize t →
  read_int t r
    = (Raise StructError, advance r (length (remaining (file r)))) ∧
  (remaining (file r) = [] → read_int8 r = (Return None, r)).
Proof.
  intros Hshort. split; [|apply read_int8_eof].
  assert (Hsz : 0 ≤ calcsize t) by (by destruct t).
  pose proof (read_plain_file r (calcsize t) Hsz) as Hr.
  unfold on_file in Hr. destruct (file_read (calcsize t) (file r)) as [o f'] eqn:Hf.
  inversion Hr as [[Ho Hf']]. subst o.
  rewrite take_ge in * by lia.
  rewrite (read_int_short r t _ f' Hf) by lia. by rewrite Hf'.
Qed.

(** C5 (amended): on any stream, each of the 16-, 32- and 64-bit reads,
    signed or unsigned, raises the [struct] error when the read of the
    stream returns fewer bytes than the width; the 8-bit read raises
    nothing and returns [None] when the read of the stream returns no
    byte; an exception the read of the stream raises itself is passed on
    unchanged.  On a plain file the read is short exactly when fewer
    bytes remain than the width, and empty when none remains. *)
Theorem short_read_struct_error {S} `{Stream S} (t : IntType) :
  (∀ (r : BinaryReader S) (data : list byte) (f' : S),
     file_read (calcsize t) (file r) = (Return data, f') →
     Z.of_nat (length data) < calcsize t →
     read_int t r = (Raise StructError, {| file := f'; be := be r |})) ∧
  (∀ (r : BinaryReader S) (f' : S),
     file_read 1 (file r) = (Return [], f') →
     read_int8 r = (Return None, {| file := f'; be := be r |})) ∧
  (∀ (r : BinaryReader S) (e : PyError) (f' : S),
     (file_read (calcsize t) (file r) = (Raise e, f') →
      read_int t r = (Raise e, {| file := f'; be := be r |})) ∧
     (file_read 1 (file r) = (Raise e, f') →
      read_int8 r = (Raise e, {| file := f'; be := be r |}))) ∧
  (∀ rh : BinaryReader Handle,
     (Z.of_nat (length (remaining (file rh))) < calcsize t →
      read_int t rh
        = (Raise StructError, advance rh (length (remaining (file rh))))) ∧
     (remaining (file rh) = [] → read_int8 rh = (Return None, rh))).
Proof.
  split; [|split; [|split]].
  - intros r data f' Hr Hlen. exact (read_int_short r t data f' Hr Hlen).
  - intros r f' Hr. unfold read_int8, bind, on_file. by rewrite Hr.
  - intros r e f'. split; intros Hr.
    + unfold read_int, read_struct, bind, get, on_file. by rewrite Hr.
    + unfold read_int8, bind, on_file. by rewrite Hr.
  - intros rh. split.
    + intros Hshort. by destruct (short_read_plain_file rh t Hshort).
    + apply read_int8_eof.
Qed.

(** C5 as stated fails for the 8-bit read: on an exhausted file it returns
    [None] and raises nothing. *)
Lemma read_int8_eof_counterexample :
  remaining (file (BinaryReader_init (open []))) = [] ∧
  read_int8 (BinaryReader_init (open []))
    = (Return None, BinaryReader_init (open [])).
Proof. split; reflexivity. Qed.

(** ** Strings at the end of a file *)

Lemma read_cstring_loop_stop {S} `{Stream S} (fuel : nat) (buf : list Z)
    (r : BinaryReader S) :
  read_cstring_loop fuel buf None r = (Return buf, r).
Proof. by destruct fuel. Qed.

(** The loop of [read_cstring] on a file whose remaining bytes hold no
    zero: it runs to the end of the file and stops on [None]. *)
Lemma read_cstring_loop_no_zero (rest : list byte) :
  ∀ (fuel : nat) (buf : list Z) (v : Z) (r : BinaryReader Handle),
    0 ≤ position (file r) → remaining (file r) = rest →
    Forall (λ b, byte_val b ≠ 0) rest → v ≠ 0 →
    (length rest < fuel)%nat →
    read_cstring_loop fuel buf (Some v) r
      = (Return (buf ++ v :: map byte_val rest), advance r (length rest)).
Proof.
  induction rest as [|b rest IH]; intros fuel buf v r Hp Hr Hnz Hv Hfuel.
  - destruct fuel as [|fuel]; [simpl in Hfuel; lia|].
    destruct v; [done| |]; simpl; unfold bind;
      rewrite (read_int8_eof r Hr), read_cstring_loop_stop;
      by rewrite advance_0.
  - destruct fuel as [|fuel]; [simpl in Hfuel; lia|].
    inversion Hnz as [|? ? Hb Hrest]; subst.
    assert (Hstep : read_cstring_loop (Datatypes.S fuel) buf (Some v) r
                    = read_cstring_loop fuel (buf ++ [v]) (Some (byte_val b))
                        (advance r 1)).
    { destruct v; [done| |]; simpl; unfold bind;
        by rewrite (read_int8_byte r b rest Hr). }
    rewrite Hstep. rewrite (IH fuel (buf ++ [v]) (byte_val b) (advance r 1)).
    + rewrite advance_advance, <- app_assoc. done.
    + simpl. lia.
    + rewrite remaining_advance by done. by rewrite Hr.
    + done.
    + done.
    + simpl in Hfuel. lia.
Qed.

(** On a plain file whose remaining bytes are ASCII and hold no zero byte,
    [read_cstring] stops at the end of the file and returns all of them
    as the string; it raises nothing. *)
Lemma read_cstring_plain_file_eof (r : BinaryReader Handle) (fuel : nat) :
  0 ≤ position (file r) →
  Forall (λ b, byte_val b ≠ 0 ∧ byte_val b < 128) (remaining (file r)) →
  (length (remaining (file r)) ≤ fuel)%nat →
  read_cstring fuel r
    = (Return (py_str (map byte_val (remaining (file r)))),
       advance r (length (remaining (file r)))).
Proof.
  intros Hp Hall Hfuel. unfold read_cstring.
  assert (Hascii : forallb (λ b, b <? 128) (map byte_val (remaining (file r)))
                   = true).
  { apply forallb_forall. intros x Hx. apply in_map_iff in Hx as (b & <- & Hb).
    apply Z.ltb_lt. rewrite Forall_forall in Hall.
    apply Hall. by apply list_elem_of_In. }
  destruct (remaining (file r)) as [|b rest] eqn:Hr.
  - unfold bind. rewrite (read_int8_eof r Hr), read_cstring_loop_stop.
    by rewrite advance_0.
  - inversion Hall as [|? ? [Hb _] Hrest]; subst.
    unfold bind at 1. rewrite (read_int8_byte r b rest Hr).
    unfold bind.
    rewrite (read_cstring_loop_no_zero rest fuel [] (byte_val b) (advance r 1)).
    + rewrite advance_advance. unfold decode_ascii.
      change ([] ++ byte_val b :: map byte_val rest)
        with (map byte_val (b :: rest)).
      by rewrite Hascii.
    + simpl. lia.
    + rewrite remaining_advance by done. by rewrite Hr.
    + eapply Forall_impl; [exact Hrest|]. by intros x [? _].
    + done.
    + simpl in Hfuel. lia.
Qed.

Lemma one_byte_reads_plain_file (rest : list byte) :
  ∀ r : BinaryReader Handle,
    0 ≤ position (file r) → remaining (file r) = rest →
    one_byte_reads r rest (advance r (length rest)).
Proof.
  induction rest as [|b rest IH]; intros r Hp Hr.
  - apply reads_no_byte. rewrite read_plain_file by lia. by rewrite Hr.
  - apply (reads_a_byte r (advance r 1) _ b [] rest).
    + rewrite read_plain_file by lia. by rewrite Hr.
    + replace (advance r (length (b :: rest)))
        with (advance (advance r 1) (length rest))
        by (by rewrite advance_advance).
      apply IH; [simpl; lia|].
      rewrite remaining_advance by done. by rewrite Hr.
Qed.

Lemma read_int8_no_byte {S} `{Stream S} (r r' : BinaryReader S) :
  on_file (file_read 1) r = (Return [], r') → read_int8 r = (Return None, r').
Proof. intros Hr. unfold read_int8, bind. by rewrite Hr. Qed.

Lemma read_int8_a_byte {S} `{Stream S} (r r' : BinaryReader S) (b : byte)
    (more : list byte) :
  on_file (file_read 1) r = (Return (b :: more), r') →
  read_int8 r = (Return (Some (byte_val b)), r').
Proof. intros Hr. unfold read_int8, bind. by rewrite Hr. Qed.

Lemma read_cstring_loop_reads {S} `{Stream S} (r r' : BinaryReader S)
    (bs : list byte) :
  one_byte_reads r bs r' →
  ∀ (fuel : nat) (buf : list Z) (v : Z),
    Forall (λ b, byte_val b ≠ 0) bs → v ≠ 0 → (length bs < fuel)%nat →
    read_cstring_loop fuel buf (Some v) r
      = (Return (buf ++ v :: map byte_val bs), r').
Proof.
  induction 1 as [r r' Hr|r r1 r' b more bs Hr Hrest IH];
    intros fuel buf v Hnz Hv Hfuel.
  - destruct fuel as [|fuel]; [simpl in Hfuel; lia|].
    destruct v; [done| |]; simpl; unfold bind;
      by rewrite (read_int8_no_byte r r' Hr), read_cstring_loop_stop.
  - destruct fuel as [|fuel]; [simpl in Hfuel; lia|].
    inversion Hnz as [|? ? Hb Hbs]; subst.
    assert (Hstep : read_cstring_loop (Datatypes.S fuel) buf (Some v) r
                    = read_cstring_loop fuel (buf ++ [v]) (Some (byte_val b)) r1).
    { destruct v; [done| |]; simpl; unfold bind;
        by rewrite (read_int8_a_byte r r1 b more Hr). }
    rewrite Hstep, (IH fuel (buf ++ [v]) (byte_val b) Hbs Hb);
      [|simpl in Hfuel; lia].
    by rewrite <- app_assoc.
Qed.

(** C4 (amended): on any stream, when successive one-byte reads return
    the bytes [bs], none of them zero and all below 128, and then a read
    returns no byte, [read_cstring] returns [bs] as the string and leaves
    the reader where that last read left it: a read that returns no byte
    ends the string and raises nothing.  On a plain file [bs] is all that
    remained of the file. *)
Theorem read_cstring_at_eof_returns {S} `{Stream S} (fuel : nat) :
  (∀ (r r' : BinaryReader S) (bs : list byte),
     one_byte_reads r bs r' →
     Forall (λ b, byte_val b ≠ 0 ∧ byte_val b < 128) bs →
     (length bs ≤ fuel)%nat →
     read_cstring fuel r = (Return (py_str (map byte_val bs)), r')) ∧
  (∀ rh : BinaryReader Handle,
     0 ≤ position (file rh) →
     Forall (λ b, byte_val b ≠ 0 ∧ byte_val b < 128) (remaining (file rh)) →
     (length (remaining (file rh)) ≤ fuel)%nat →
     one_byte_reads rh (remaining (file rh))
       (advance rh (length (remaining (file rh)))) ∧
     read_cstring fuel rh
       = (Return (py_str (map byte_val (remaining (file rh)))),
          advance rh (length (remaining (file rh))))).
Proof.
  split.
  - intros r r' bs Hreads Hall Hfuel. unfold read_cstring.
    assert (Hascii : forallb (λ b, b <? 128) (map byte_val bs) = true).
    { apply forallb_forall. intros x Hx.
      apply in_map_iff in Hx as (b & <- & Hb).
      apply Z.ltb_lt. rewrite Forall_forall in Hall.
      apply Hall. by apply list_elem_of_In. }
    inversion Hreads as [r0 r0' Hr|r0 r1 r0' b more bs' Hr Hrest]; subst.
    + unfold bind. by rewrite (read_int8_no_byte r r' Hr), read_cstring_loop_stop.
    + inversion Hall as [|? ? [Hb _] Hbs]; subst.
      unfold bind at 1. rewrite (read_int8_a_byte r r1 b more Hr).
      unfold bind.
      rewrite (read_cstring_loop_reads r1 r' bs' Hrest fuel [] (byte_val b));
        [|eapply Forall_impl; [exact Hbs|by intros x [? _]]
         |done|simpl in Hfuel; lia].
      unfold decode_ascii.
      change ([] ++ byte_val b :: map byte_val bs')
        with (map byte_val (b :: bs')).
      by rewrite Hascii.
  - intros rh Hp Hall Hfuel.
    split; [by apply one_byte_reads_plain_file|].
    by apply read_cstring_plain_file_eof.
Qed.

(** C4 as stated fails: on a file holding the two bytes "ab" and no
    terminator, [read_cstring] returns "ab". *)
Lemma read_cstring_eof_counterexample :
  Forall (λ b, byte_val b ≠ 0) (bytes [97; 98]) ∧
  read_cstring 2 (BinaryReader_init (open (bytes [97; 98])))
    = (Return "ab"%string, advance (BinaryReader_init (open (bytes [97; 98]))) 2).
Proof. split; [by repeat constructor|reflexivity]. Qed.

(** ** The version gate of the header *)

(** On any stream, a header that [read_header] returns has version 15. *)
Lemma read_header_version {S} `{Stream S} (r r' : BinaryReader S) (hd : Header) :
  read_header r = (Return hd, r') → version hd = 15.
Proof.
  unfold read_header, bind. simpl.
  repeat (match goal with
          | |- context [match ?x with _ => _ end] => destruct x eqn:?; simpl
          end; try done).
  all: intros Heq; inversion Heq; subst; simpl.
  all: match goal with
       | Hv : negb (_ =? 15) = false |- _ =>
           apply negb_false_iff, Z.eqb_eq in Hv; exact Hv
       end.
Qed.

(** When [read_header] raises, [read] raises the same exception and leaves
    the reader as the header left it: no later section is started. *)
Lemma read_sections_header_raises {S} `{Stream S} (fuel : nat)
    (r r' : BinaryReader S) (e : PyError) :
  read_header r = (Raise e, r') → read_sections fuel r = (Raise e, r').
Proof. intros Hh. unfold read_sections, bind. by rewrite Hh. Qed.

Lemma read_int_plain (r : BinaryReader Handle) (t : IntType)
    (data rest : list byte) (v : Z) :
  0 ≤ position (file r) → remaining (file r) = data ++ rest →
  unpack (be r) t data = Some v →
  read_int t r = (Return v, advance r (length data)) ∧
  remaining (file (advance r (length data))) = rest.
Proof.
  intros Hp Hr Hu.
  assert (Hlen : Z.of_nat (length data) = calcsize t).
  { unfold unpack in Hu.
    destruct (Z.of_nat (length data) =? calcsize t) eqn:He; [|done].
    by apply Z.eqb_eq in He. }
  split.
  - unfold read_int, read_struct, bind, get.
    rewrite read_plain_file by (by destruct t).
    rewrite Hr, <- Hlen, Nat2Z.id, take_app_length. simpl. by rewrite Hu.
  - rewrite remaining_advance by done. by rewrite Hr, drop_app_length.
Qed.

Lemma read_endianness_plain (r : BinaryReader Handle) :
  0 ≤ position (file r) →
  (e <- read_int8 ;; read 3 ;;; ret (Some e)) r
    = (Return (Some (byte_val <$> head (remaining (file r)))),
       advance r (length (take 4 (remaining (file r))))).
Proof.
  intros Hp. destruct (remaining (file r)) as [|b rest] eqn:Hr.
  - unfold bind at 1. rewrite (read_int8_eof r Hr).
    unfold bind, read. rewrite read_plain_file by lia. rewrite Hr. simpl.
    unfold ret. by rewrite advance_0.
  - unfold bind at 1. rewrite (read_int8_byte r b rest Hr).
    unfold bind, read. rewrite read_plain_file by lia.
    rewrite remaining_advance by done. rewrite Hr. simpl drop.
    rewrite advance_advance. unfold ret. simpl. done.
Qed.

(** [read_header] on a plain file that starts with the four header
    fields. *)
Lemma read_header_plain (r : BinaryReader Handle)
    (bms bfs bv bdo rest : list byte) (ms fs v do_ : Z) :
  0 ≤ position (file r) →
  remaining (file r) = bms ++ bfs ++ bv ++ bdo ++ rest →
  unpack true fmt_i bms = Some ms → unpack true fmt_i bfs = Some fs →
  unpack true fmt_i bv = Some v → unpack true fmt_i bdo = Some do_ →
  let r16 := advance {| file := file r; be := true |} 16 in
  let r' := {| file := file (advance r16 (if v >=? 9
                                          then length (take 4 rest) else 0));
               be := negb (v >? 5) |} in
  read_header r =
    if do_ >? fs then (Raise (RuntimeError_dataOffset do_), r16)
    else if ms >? fs then (Raise (RuntimeError_metadataSize ms), r16)
    else if negb (v =? 15) then (Raise (NotImplementedError_version v), r')
    else (Return {| metadataSize := ms; fileSize := fs; version := v;
                    dataOffset := do_;
                    endianness := if v >=? 9
                                  then Some (byte_val <$> head rest)
                                  else None |}, r').
Proof.
  intros Hp Hr Hms Hfs Hv Hdo r16 r'.
  assert (Hl : ∀ bs x, unpack true fmt_i bs = Some x → length bs = 4%nat).
  { intros bs x Hu. unfold unpack in Hu.
    destruct (Z.of_nat (length bs) =? calcsize fmt_i) eqn:He; [|done].
    apply Z.eqb_eq in He. simpl in He. lia. }
  set (r0 := {| file := file r; be := true |}).
  destruct (read_int_plain r0 fmt_i bms _ ms Hp Hr Hms) as [H1 Hr1].
  rewrite (Hl _ _ Hms) in H1, Hr1.
  destruct (read_int_plain (advance r0 4) fmt_i bfs _ fs ltac:(simpl; lia) Hr1 Hfs)
    as [H2 Hr2].
  rewrite (Hl _ _ Hfs), advance_advance in H2, Hr2.
  destruct (read_int_plain (advance r0 (4 + 4)) fmt_i bv _ v
              ltac:(simpl; lia) Hr2 Hv) as [H3 Hr3].
  rewrite (Hl _ _ Hv), advance_advance in H3, Hr3.
  destruct (read_int_plain (advance r0 (4 + 4 + 4)) fmt_i bdo _ do_
              ltac:(simpl; lia) Hr3 Hdo) as [H4 Hr4].
  rewrite (Hl _ _ Hdo), advance_advance in H4, Hr4.
  change (4 + 4 + 4 + 4)%nat with 16%nat in *. fold r16 in H4, Hr4.
  unfold read_header. unfold bind at 1. unfold set_be at 1. fold r0.
  unfold bind at 1. unfold read_int32 at 1. rewrite H1.
  unfold bind at 1. unfold read_int32 at 1. rewrite H2.
  unfold bind at 1. unfold read_int32 at 1. rewrite H3.
  unfold bind at 1. unfold read_int32 at 1. rewrite H4.
  destruct (do_ >? fs); [done|]. destruct (ms >? fs); [done|].
  assert (Hp16 : 0 ≤ position (file r16)) by (simpl; lia).
  destruct (v >=? 9).
  - unfold bind at 1. change (advance r0 16) with r16 in *.
    rewrite (read_endianness_plain r16 Hp16), Hr4.
    unfold bind, set_be, ret, raise.
    by destruct (v >? 5), (v =? 15).
  - subst r'. rewrite advance_0. unfold bind, set_be, ret, raise.
    by destruct (v >? 5), (v =? 15).
Qed.

(** A plain file that holds the four header fields, with a version other
    than 15: [read] raises while the header is decoded, and the reader is
    left where the header left it, at most 20 bytes in.  The exception is
    the unsupported-version one when [dataOffset] and [metadataSize] do not
    exceed [fileSize]; otherwise it is the invalid-header one, raised
    first. *)
Lemma other_version_plain_file (fuel : nat)
    (bms bfs bv bdo rest : list byte) (ms fs v do_ : Z) :
  unpack true fmt_i bms = Some ms → unpack true fmt_i bfs = Some fs →
  unpack true fmt_i bv = Some v → unpack true fmt_i bdo = Some do_ →
  v ≠ 15 →
  let f := open (bms ++ bfs ++ bv ++ bdo ++ rest) in
  ∃ e r',
    SerializedFileReader_read fuel f = (Raise e, r') ∧
    read_header (BinaryReader_init f) = (Raise e, r') ∧
    e = (if do_ >? fs then RuntimeError_dataOffset do_
         else if ms >? fs then RuntimeError_metadataSize ms
         else NotImplementedError_version v) ∧
    content (file r') = content f ∧
    position (file r')
      = 16 + (if (do_ >? fs) || (ms >? fs) || negb (v >=? 9) then 0
              else Z.of_nat (length (take 4 rest))).
Proof.
  intros Hms Hfs Hv Hdo Hne f.
  pose proof (read_header_plain (BinaryReader_init f) bms bfs bv bdo rest
                ms fs v do_ ltac:(done) eq_refl Hms Hfs Hv Hdo) as Hh.
  simpl in Hh.
  assert (Hv15 : negb (v =? 15) = true)
    by (apply negb_true_iff, Z.eqb_neq; done).
  rewrite Hv15 in Hh.
  destruct (do_ >? fs); [|destruct (ms >? fs)].
  - eexists _, _. split; [apply read_sections_header_raises; exact Hh|].
    split; [exact Hh|]. done.
  - eexists _, _. split; [apply read_sections_header_raises; exact Hh|].
    split; [exact Hh|]. done.
  - eexists _, _. split; [apply read_sections_header_raises; exact Hh|].
    split; [exact Hh|]. split; [done|]. split; [done|].
    simpl. destruct (v >=? 9); simpl; lia.
Qed.

Lemma read_int_be {S} `{Stream S} (t : IntType) (r r' : BinaryReader S)
    (o : outcome Z) :
  read_int t r = (o, r') → be r' = be r.
Proof.
  unfold read_int, read_struct, bind, get, on_file.
  destruct (file_read (calcsize t) (file r)) as [[data|e|] f'].
  - destruct (unpack (be r) t data); intros Heq; by inversion Heq.
  - intros Heq; by inversion Heq.
  - intros Heq; by inversion Heq.
Qed.

(** [read_header] once its first three fields are read, the version not
    being 15: what is left is the fourth field, the two size checks, the
    endianness bytes and the raise of the version check. *)
Lemma read_header_after_version {S} `{Stream S}
    (r r1 r2 r3 : BinaryReader S) (ms fs v : Z) :
  read_int32 {| file := file r; be := true |} = (Return ms, r1) →
  read_int32 r1 = (Return fs, r2) →
  read_int32 r2 = (Return v, r3) →
  v ≠ 15 →
  read_header r
  = (do_ <- read_int32 ;;
     if do_ >? fs then raise (RuntimeError_dataOffset do_)
     else if ms >? fs then raise (RuntimeError_metadataSize ms)
     else
       (_ <- (if v >=? 9
              then e <- read_int8 ;; read 3 ;;; ret (Some e)
              else ret None) ;;
        (if v >? 5 then set_be false else ret tt) ;;;
        raise (NotImplementedError_version v))) r3.
Proof.
  intros H1 H2 H3 Hv.
  assert (Hv15 : negb (v =? 15) = true)
    by (apply negb_true_iff, Z.eqb_neq; done).
  unfold read_header. unfold bind at 1. unfold set_be at 1.
  unfold bind at 1. rewrite H1. unfold bind at 1. rewrite H2.
  unfold bind at 1. rewrite H3. by rewrite Hv15.
Qed.

(** C1 (amended): on any stream, once the first three header fields are
    read and the version is not 15, [read] fails while the header is
    decoded: it fails as [read_header] fails and leaves the reader where
    [read_header] left it, so no later section is started.  When the
    fourth field is read too, the exception is the invalid-[dataOffset]
    one if [dataOffset] exceeds [fileSize], else the
    invalid-[metadataSize] one if [metadataSize] exceeds [fileSize], else
    the unsupported-version one (for a version of 9 or more, provided the
    reads of the endianness and reserved bytes return); when the read of
    the fourth field raises, that exception is the one [read] raises. *)
Theorem other_version_fails_in_header {S} `{Stream S} (fuel : nat)
    (r r1 r2 r3 : BinaryReader S) (ms fs v : Z) :
  read_int32 {| file := file r; be := true |} = (Return ms, r1) →
  read_int32 r1 = (Return fs, r2) →
  read_int32 r2 = (Return v, r3) →
  v ≠ 15 →
  ∃ o o' r',
    read_header r = (o, r') ∧ read_sections fuel r = (o', r') ∧
    same_failure o o' ∧
    (∀ do_ r4, read_int32 r3 = (Return do_, r4) →
       (fs < do_ → o = Raise (RuntimeError_dataOffset do_) ∧ r' = r4) ∧
       (do_ ≤ fs → fs < ms →
        o = Raise (RuntimeError_metadataSize ms) ∧ r' = r4) ∧
       (do_ ≤ fs → ms ≤ fs → v < 9 →
        o = Raise (NotImplementedError_version v) ∧
        r' = {| file := file r4; be := negb (v >? 5) |}) ∧
       (do_ ≤ fs → ms ≤ fs → 9 ≤ v →
        ∀ e r5 x r6, read_int8 r4 = (Return e, r5) →
                     read 3 r5 = (Return x, r6) →
                     o = Raise (NotImplementedError_version v) ∧
                     r' = {| file := file r6; be := false |})) ∧
    (∀ e r4, read_int32 r3 = (Raise e, r4) → o = Raise e ∧ r' = r4).
Proof.
  intros H1 H2 H3 Hv.
  pose proof (read_header_after_version r r1 r2 r3 ms fs v H1 H2 H3 Hv) as Hh.
  (* the header never returns here, so [read] stops with it *)
  assert (Hstop : ∀ (o : outcome Header) r',
            read_header r = (o, r') → (∀ hd, o ≠ Return hd) →
            ∃ o' : outcome SerializedFile,
              read_sections fuel r = (o', r') ∧ same_failure o o').
  { intros o r' Ho Hnr. unfold read_sections, bind. rewrite Ho.
    destruct o as [hd|e|]; [by destruct (Hnr hd)| |]; eexists; by split. }
  destruct (read_header r) as [o r'] eqn:Ho.
  assert (Hnr : ∀ hd, o ≠ Return hd).
  { intros hd ->. symmetry in Hh. revert Hh. unfold bind, raise, ret, set_be.
    case_binds. }
  destruct (Hstop o r' eq_refl Hnr) as (o' & Hs & Hsame).
  exists o, o', r'. split; [done|]. split; [done|]. split; [done|].
  split; [|intros e r4 H4; symmetry in Hh; revert Hh; unfold bind at 1;
           rewrite H4; intros Heq; by inversion Heq].
  intros do_ r4 H4. symmetry in Hh. revert Hh.
  unfold bind at 1. rewrite H4.
  destruct (do_ >? fs) eqn:Hdo.
  { apply Z.gtb_lt in Hdo. intros Heq. inversion Heq; subst.
    repeat split; (done || lia). }
  rewrite Z.gtb_ltb in Hdo. apply Z.ltb_ge in Hdo.
  destruct (ms >? fs) eqn:Hms.
  { apply Z.gtb_lt in Hms. intros Heq. inversion Heq; subst.
    repeat split; (done || lia). }
  rewrite Z.gtb_ltb in Hms. apply Z.ltb_ge in Hms.
  destruct (v >=? 9) eqn:H9.
  - apply Z.geb_le in H9.
    assert (Hgt : (v >? 5) = true) by (apply Z.gtb_lt; lia).
    rewrite Hgt. intros Heq.
    split; [lia|]. split; [lia|]. split; [lia|].
    intros _ _ _ e r5 x r6 H5 H6. revert Heq.
    unfold bind. rewrite H5, H6. unfold ret, set_be, raise.
    intros Heq. by inversion Heq.
  - rewrite Z.geb_leb in H9. apply Z.leb_gt in H9. intros Heq.
    split; [lia|]. split; [lia|]. split; [|lia].
    intros _ _ _. revert Heq. unfold bind, ret, set_be, raise.
    destruct (v >? 5); intros Heq; inversion Heq; subst; [done|].
    split; [done|].
    pose proof (read_int_be _ _ _ _ H1) as B1.
    pose proof (read_int_be _ _ _ _ H2) as B2.
    pose proof (read_int_be _ _ _ _ H3) as B3.
    pose proof (read_int_be _ _ _ _ H4) as B4.
    destruct r' as [f b]. simpl in *. congruence.
Qed.

(** C1 as stated fails: a version-14 header with [dataOffset] beyond
    [fileSize] raises the invalid-[dataOffset] error, not the
    unsupported-version one. *)
Lemma other_version_bad_offset_counterexample :
  unpack true fmt_i (take 4 (drop 8 bad_offset_file)) = Some 14 ∧
  fst (SerializedFileReader_read 0 (open bad_offset_file))
    = Raise (RuntimeError_dataOffset 10).
Proof. split; reflexivity. Qed.

(** ** Duplicate identifiers *)

(** A type-table entry whose class identifier is already in the table:
    the error message is built from [path_id], a name [read_types] never
    binds, so the lookup of that name is what raises. *)
Lemma read_types_entry_duplicate (r : BinaryReader Handle)
    (classes : gmap Z BClass) (bid hash rest : list byte) (cid : Z) :
  0 ≤ position (file r) → remaining (file r) = bid ++ hash ++ rest →
  unpack (be r) fmt_i bid = Some cid → 0 ≤ cid → length hash = 16%nat →
  is_Some (classes !! cid) →
  read_types_entry (Some false) classes r
    = (Raise (NameError "path_id"), advance r 20).
Proof.
  intros Hp Hr Hu Hcid Hlen [old Hold].
  destruct (read_int_plain r fmt_i bid _ cid Hp Hr Hu) as [H1 Hr1].
  assert (Hl : length bid = 4%nat).
  { unfold unpack in Hu.
    destruct (Z.of_nat (length bid) =? calcsize fmt_i) eqn:He; [|done].
    apply Z.eqb_eq in He. simpl in He. lia. }
  rewrite Hl in H1, Hr1.
  unfold read_types_entry. unfold bind at 1. unfold read_int32. rewrite H1.
  destruct (cid <? 0) eqn:Hneg; [apply Z.ltb_lt in Hneg; lia|].
  unfold bind at 1. unfold ret at 1.
  unfold bind at 1. unfold read_uuid, read. unfold bind at 1.
  rewrite read_plain_file by lia. rewrite Hr1.
  replace (Z.to_nat 16) with (length hash) by lia.
  rewrite take_app_length, Hlen. simpl. rewrite advance_advance.
  by rewrite Hold.
Qed.

(** C6, type table: on a file with two entries of class identifier 1 the
    decode raises [NameError] for [path_id], not the duplicate-class
    error. *)
Theorem duplicate_class_id_raises_NameError :
  fst (SerializedFileReader_read 1 (open duplicate_class_file))
    = Raise (NameError "path_id").
Proof. reflexivity. Qed.

(** The object index does what the type table misses: two objects with
    path identifier 7 raise the duplicate-path error naming 7. *)
Lemma duplicate_path_id_raises_RuntimeError :
  fst (SerializedFileReader_read 1 (open duplicate_path_file))
    = Raise (RuntimeError_path_id 7).
Proof. reflexivity. Qed.

(** ** Two instances in one process *)

(** C3: a second [ChunkedFileIO] appends its chunk to the list the first
    instance reads from, and a read on the second instance is served from
    the first one's source and moves that source's handle. *)
Theorem second_instance_shares_chunks :
  let a := bytes [1; 2] in
  let b := bytes [3] in
  let p1 := snd (ChunkedFileIO_new [a] process_start) in
  let p2 := snd (ChunkedFileIO_new [b] p1) in
  let p3 := snd (on_instance 1 (ChunkedFileIO_read (-1)) p2) in
  chunks <$> view p1 0 = Some [Chunk_init a 0] ∧
  chunks <$> view p2 0 = Some [Chunk_init a 0; Chunk_init b 0] ∧
  fst (on_instance 1 (ChunkedFileIO_read (-1)) p2) = Return a ∧
  chunks <$> view p3 0
    = Some [set_position (Chunk_init a 0) 2; Chunk_init b 0].
Proof. repeat split. Qed.

(** ** The theorems at concrete inputs *)

Ltac by_computation :=
  vm_compute; repeat split; (reflexivity || (intro; discriminate) || lia).

Ltac wf_by_computation := split; by_computation.

Lemma other_version_fails_in_header_witness :
  ∃ r', SerializedFileReader_read 0 (open version_14_file)
        = (Raise (NotImplementedError_version 14), r') ∧
        position (file r') = 17.
Proof.
  set (r := BinaryReader_init (open version_14_file)).
  set (r0 := {| file := file r; be := true |}).
  destruct (other_version_fails_in_header 0 r
              (advance r0 4) (advance r0 8) (advance r0 12) 0 100 14)
    as (o & o' & r' & _ & Hread & Hsame & Hcases & _);
    [reflexivity | reflexivity | reflexivity | lia |].
  destruct (Hcases 0 (advance r0 16)) as (_ & _ & _ & H9); [reflexivity|].
  destruct (H9 ltac:(lia) ltac:(lia) ltac:(lia)
              (Some 1) (advance r0 17) [] (advance r0 17)) as [-> ->];
    [reflexivity | reflexivity |].
  exists {| file := file (advance r0 17); be := false |}.
  split; [|reflexivity].
  destruct o' as [sf|e|]; [done| |done]. simpl in Hsame. subst e.
  exact Hread.
Defined.

Lemma seek_tell_read_built_witness :
  ∃ st1 st2,
    ChunkedFileIO_seek 2 whence_SET (built [bytes [1; 2]; bytes [3; 4]])
      = (Return tt, st1) ∧
    ChunkedFileIO_tell st1 = (Return 2, st1) ∧
    ChunkedFileIO_read 1 st1 = (Return (bytes [3]), st2) ∧
    index st2 = 1%nat.
Proof.
  destruct (seek_tell_read_built [bytes [1; 2]; bytes [3; 4]] 1
              (bytes [3; 4]) 2 1)
    as (st1 & st2 & Hseek & Htell & Hread & Hidx & _);
    [repeat constructor; done | reflexivity | by_computation | lia |].
  exists st1, st2. repeat split; assumption.
Defined.

(** C2: a seek to the first byte of a source does not make the next read
    return that byte on a stream that was read before.  On "ab" + "cd",
    after [read(2)], [read(2)], [seek(0)] and [seek(2)], [tell] returns 2,
    an offset inside the second source, but [read(1)] returns no byte: the
    seek stopped at the end of the first chunk, and the read that falls
    through to the second chunk uses its handle where the earlier reads
    left it, at its end. *)
Theorem seek_to_boundary_reads_stale_handle :
  let st0 := built [bytes [97; 98]; bytes [99; 100]] in
  let st1 := snd (ChunkedFileIO_read 2 st0) in
  let st2 := snd (ChunkedFileIO_read 2 st1) in
  let st3 := snd (ChunkedFileIO_seek 0 whence_SET st2) in
  let st4 := snd (ChunkedFileIO_seek 2 whence_SET st3) in
  wf st3 ∧
  fst (ChunkedFileIO_seek 2 whence_SET st3) = Return tt ∧
  fst (ChunkedFileIO_tell st4) = Return 2 ∧
  (start <$> chunks st4 !! 1%nat) = Some 2 ∧
  (end_ <$> chunks st4 !! 1%nat) = Some 4 ∧
  (content ∘ handle <$> chunks st4 !! 1%nat) = Some (bytes [99; 100]) ∧
  fst (ChunkedFileIO_read 1 st4) = Return [].
Proof. split; [wf_by_computation|]. repeat split. Qed.

Lemma read_cstring_at_eof_returns_witness :
  read_cstring 2 (BinaryReader_init (open (bytes [97; 98])))
    = (Return "ab"%string,
       advance (BinaryReader_init (open (bytes [97; 98]))) 2).
Proof.
  destruct (read_cstring_at_eof_returns (S := Handle) 2) as [Hany _].
  apply (Hany (BinaryReader_init (open (bytes [97; 98])))
              (advance (BinaryReader_init (open (bytes [97; 98]))) 2)
              (bytes [97; 98])).
  - apply (one_byte_reads_plain_file (bytes [97; 98])); [by_computation|].
    reflexivity.
  - repeat constructor; by_computation.
  - by_computation.
Defined.

Lemma short_read_struct_error_witness :
  read_int fmt_i (BinaryReader_init (open (bytes [1; 2])))
    = (Raise StructError, advance (BinaryReader_init (open (bytes [1; 2]))) 2).
Proof.
  destruct (short_read_struct_error (S := Handle) fmt_i) as (Hany & _).
  apply (Hany (BinaryReader_init (open (bytes [1; 2]))) (bytes [1; 2])
              (file (advance (BinaryReader_init (open (bytes [1; 2]))) 2)));
    [reflexivity | by_computation].
Defined.

Lemma read_touches_at_most_two_chunks_witness :
  ∃ data st',
    ChunkedFileIO_read 1 (built [bytes [1]; bytes [2]]) = (Return data, st') ∧
    length (chunks st') = 2%nat.
Proof.
  destruct (read_touches_at_most_two_chunks
              (built [bytes [1]; bytes [2]]) 1 (Chunk_init (bytes [1]) 0))
    as (data & st' & Hread & Hlen & _); [reflexivity|].
  exists data, st'. split; [exact Hread | exact Hlen].
Defined.

Lemma seek_in_range_iff_witness :
  ∃ st', ChunkedFileIO_seek 1 whence_SET (built [bytes [1; 2]])
           = (Return tt, st') ∧
         ChunkedFileIO_tell st' = (Return 1, st').
Proof.
  destruct (seek_in_range_iff (built [bytes [1; 2]]) 1 whence_SET 1)
    as [Hin _]; [wf_by_computation | reflexivity |].
  destruct Hin as (st' & Hseek & Htell & _); [by_computation|].
  exists st'. split; [exact Hseek | exact Htell].
Defined.

Lemma align_seeks_to_next_multiple_witness :
  ∃ r', align 4 reader_at_5 = (Return tt, r') ∧ tell r' = (Return 8, r').
Proof.
  destruct (align_seeks_to_next_multiple reader_at_5 4 5)
    as (_ & _ & _ & Hin & _); [wf_by_computation | reflexivity | lia |].
  destruct Hin as (r' & Halign & Htell & _); [by_computation|].
  exists r'. split; [exact Halign | exact Htell].
Defined.

(** Aligning at 8 changes nothing. *)
Example align_at_8_is_noop (r : BinaryReader Handle) :
  position (file r) = 8 → align 4 r = (Return tt, r).
Proof.
  intros Hp. rewrite (align_eq r 4 8); [done| |lia].
  unfold file_tell. simpl. unfold Handle_tell. by rewrite Hp.
Qed.

(** A handle left behind by earlier reads is not reset by a seek that
    stops at the end of the chunk before it: after reading three bytes of
    "ab" + "cd" and seeking to 0 and then to 2, the next byte read is "d". *)
Example stale_handle_after_boundary_seek :
  let st0 := built [bytes [97; 98]; bytes [99; 100]] in
  let st1 := snd (ChunkedFileIO_read 2 st0) in
  let st2 := snd (ChunkedFileIO_read 1 st1) in
  let st3 := snd (ChunkedFileIO_seek 0 whence_SET st2) in
  let st4 := snd (ChunkedFileIO_seek 2 whence_SET st3) in
  fst (ChunkedFileIO_tell st4) = Return 2 ∧
  fst (ChunkedFileIO_read 1 st4) = Return (bytes [100]).
Proof. split; reflexivity. Qed.

(** * Further properties of the code *)

(** ** Construction *)

Lemma layout_skip_empty (paths : list (list byte)) :
  ∀ pos, layout pos (filter (λ p, (0 < length p)%nat) paths) = layout pos paths.
Proof.
  induction paths as [|p ps IH]; intros pos; [done|].
  destruct p as [|b p].
  - rewrite filter_cons_False by (simpl; lia). simpl. apply IH.
  - rewrite filter_cons_True by (simpl; lia). simpl. by rewrite IH.
Qed.

Lemma layout_length (paths : list (list byte)) :
  ∀ pos, length (layout pos paths)
         = length (filter (λ p, (0 < length p)%nat) paths).
Proof.
  induction paths as [|p ps IH]; intros pos; [done|].
  destruct p as [|b p].
  - rewrite filter_cons_False by (simpl; lia). simpl. apply IH.
  - rewrite filter_cons_True by (simpl; lia). simpl. by rewrite IH.
Qed.

(** X1: [__init__] drops the empty files: the chunk list of a first stream
    is the one built from the non-empty paths alone, it has one chunk per
    non-empty path, and no chunk has size 0. *)
Theorem init_skips_empty_sources (paths : list (list byte)) :
  let nonempty := filter (λ p, (0 < length p)%nat) paths in
  chunks (built paths) = chunks (built nonempty) ∧
  length (chunks (built paths)) = length nonempty ∧
  Forall (λ c, 0 < size c ∧ end_ c = start c + size c) (chunks (built paths)).
Proof.
  intros nonempty. rewrite !built_layout. split; [|split].
  - unfold nonempty. by rewrite layout_skip_empty.
  - apply layout_length.
  - apply Forall_lookup. intros i c Hc.
    destruct (laid_out_lookup _ 0 i c (layout_laid_out paths 0) Hc)
      as (_ & ? & ? & _).
    done.
Qed.

(** X2: a first stream with at least one byte is laid out end to end from
    offset 0, its cursor is on the first chunk, its total is the sum of
    the file sizes, and [tell] returns 0. *)
Theorem built_stream_is_laid_out (paths : list (list byte)) :
  concat paths ≠ [] →
  wf (built paths) ∧
  total (chunks (built paths)) = Z.of_nat (length (concat paths)) ∧
  ChunkedFileIO_tell (built paths) = (Return 0, built paths).
Proof.
  intros Hne. destruct (built_wf paths Hne) as [Hwf Ht].
  split; [done|]. split; [done|].
  pose proof Hwf as [Hl Hi].
  destruct (lookup_lt_is_Some_2 _ _ Hi) as [c Hc].
  rewrite (ChunkedFileIO_tell_at _ c Hc).
  destruct (laid_out_lookup _ _ _ _ Hl Hc) as (_ & _ & _ & _ & _ & _ & Hs).
  rewrite Hs by done.
  assert (Hp : position (handle c) = 0).
  { rewrite built_layout in Hc. simpl in Hc.
    clear -Hc. revert Hc. generalize 0 at 1. induction paths as [|p ps IH];
      intros z Hc; [done|]. simpl in Hc.
    destruct (Z.of_nat (length p) =? 0); [by eapply IH|].
    simpl in Hc. by inversion Hc. }
  by rewrite Hp.
Qed.

Lemma built_stream_is_laid_out_witness :
  total (chunks (built [bytes [1; 2]; []; bytes [3]])) = 3.
Proof.
  destruct (built_stream_is_laid_out [bytes [1; 2]; []; bytes [3]])
    as (_ & Ht & _); [by_computation|].
  exact Ht.
Defined.

(** X3: every [ChunkedFileIO(paths)] appends its chunks, laid out from
    offset 0, to the list the instances made before it already use; the
    new instance starts with index 0 and each older instance keeps its
    index and sees the longer list. *)
Theorem new_instance_appends_to_shared_list (p : Process)
    (paths : list (list byte)) :
  let p' := {| ChunkedFileIO_chunks := ChunkedFileIO_chunks p ++ layout 0 paths;
               instances := instances p ++ [0%nat] |} in
  ChunkedFileIO_new paths p = (Return (length (instances p)), p') ∧
  view p' (length (instances p))
    = Some {| chunks := ChunkedFileIO_chunks p ++ layout 0 paths; index := 0 |} ∧
  (∀ self st, view p self = Some st →
     view p' self
       = Some {| chunks := chunks st ++ layout 0 paths; index := index st |}).
Proof.
  intros p'. split; [|split].
  - unfold ChunkedFileIO_new, ChunkedFileIO_init.
    by rewrite ChunkedFileIO_init_loop_layout.
  - unfold view. simpl. rewrite lookup_app_r by done.
    by rewrite Nat.sub_diag.
  - intros self st Hv. unfold view in *. simpl.
    destruct (instances p !! self) as [i|] eqn:Hi; [|done].
    rewrite (lookup_app_l_Some _ _ _ _ Hi). simpl in *.
    by inversion Hv.
Qed.

(** ** Reading a chunk stream *)

Lemma read_data_length (n : Z) (c : Chunk) :
  0 ≤ position (handle c) →
  Z.of_nat (length (read_data n c))
  = if n <? 0
    then Z.max 0 (Z.of_nat (length (content (handle c))) - position (handle c))
    else Z.min n (Z.max 0 (Z.of_nat (length (content (handle c)))
                           - position (handle c))).
Proof.
  intros Hp. unfold read_data, py_slice.
  destruct (n <? 0) eqn:Hn.
  - rewrite length_drop. lia.
  - apply Z.ltb_ge in Hn. rewrite length_take, length_drop. lia.
Qed.

(** X4: a read on a well-formed stream returns, keeps the stream well
    formed and its total unchanged, returns at most [n] bytes for
    [n ≥ 0], and, when the cursor stays on its chunk, moves [tell] forward
    by the number of bytes returned. *)
Theorem read_keeps_layout_and_advances (st : ChunkedFileIO) (n pos : Z) :
  wf st → ChunkedFileIO_tell st = (Return pos, st) →
  ∃ data st',
    ChunkedFileIO_read n st = (Return data, st') ∧
    wf st' ∧ total (chunks st') = total (chunks st) ∧
    (0 ≤ n → Z.of_nat (length data) ≤ n) ∧
    (index st' = index st →
     ChunkedFileIO_tell st' = (Return (pos + Z.of_nat (length data)), st')).
Proof.
  intros Hwf Ht. pose proof Hwf as [Hl Hi].
  destruct (lookup_lt_is_Some_2 _ _ Hi) as [c Hc].
  rewrite (ChunkedFileIO_tell_at _ c Hc) in Ht. inversion Ht as [Hpos].
  destruct (laid_out_lookup _ _ _ _ Hl Hc) as (? & ? & ? & ? & _).
  destruct (ChunkedFileIO_read_wf st n Hwf) as (data & st' & Hr & Hwf' & Htot).
  exists data, st'. split; [done|]. split; [done|]. split; [done|].
  destruct (ChunkedFileIO_read_cases st n c Hc) as (Hne & Hlast & Hnext).
  assert (Hbound : ∀ c0, 0 ≤ position (handle c0) → 0 ≤ n →
                         Z.of_nat (length (read_data n c0)) ≤ n).
  { intros c0 Hp0 Hn. rewrite read_data_length by done.
    destruct (n <? 0) eqn:Hneg; [apply Z.ltb_lt in Hneg; lia|lia]. }
  assert (Hsame : ∀ l, l !! index st = Some (read_chunk n c) →
            ChunkedFileIO_tell {| chunks := l; index := index st |}
            = (Return (start c + position (handle c)
                       + Z.of_nat (length (read_data n c))),
               {| chunks := l; index := index st |})).
  { intros l Hlk. rewrite (ChunkedFileIO_tell_at _ (read_chunk n c)) by done.
    simpl. do 2 f_equal. lia. }
  destruct (read_data n c) as [|b d] eqn:Hd.
  - destruct (chunks st !! (index st + 1)%nat) as [c2|] eqn:Hc2.
    + rewrite (Hnext eq_refl c2 eq_refl) in Hr. inversion Hr; subst.
      split; [|simpl; lia].
      destruct (laid_out_lookup _ _ _ _ Hl Hc2) as (_ & _ & _ & ? & _).
      intros Hn. apply Hbound; lia.
    + apply lookup_ge_None in Hc2. rewrite (Hlast eq_refl Hc2) in Hr.
      inversion Hr; subst. split; [simpl; lia|]. intros _.
      rewrite Hsame; [done|by rewrite list_lookup_insert_eq].
  - rewrite Hne in Hr by done. inversion Hr; subst.
    split; [intros Hn; rewrite <- Hd; apply Hbound; lia|]. intros _.
    rewrite Hsame; [done|by rewrite list_lookup_insert_eq].
Qed.

Lemma read_keeps_layout_and_advances_witness :
  ∃ data st',
    ChunkedFileIO_read 1 (built [bytes [1; 2]]) = (Return data, st') ∧
    ChunkedFileIO_tell st' = (Return (0 + Z.of_nat (length data)), st').
Proof.
  destruct (read_keeps_layout_and_advances (built [bytes [1; 2]]) 1 0)
    as (data & st' & Hr & _ & _ & _ & Ht); [wf_by_computation|reflexivity|].
  exists data, st'. split; [exact Hr|]. apply Ht.
  assert (st' = snd (ChunkedFileIO_read 1 (built [bytes [1; 2]]))) as ->
    by (by rewrite Hr).
  reflexivity.
Defined.

(** X5: an integer that straddles a chunk boundary cannot be read: when the
    active chunk has some bytes left but fewer than the format needs,
    [read_int] raises the [struct] error, however many bytes follow in
    the next chunks. *)
Theorem read_int_across_chunks_raises (r : BinaryReader ChunkedFileIO)
    (t : IntType) (c : Chunk) :
  wf (file r) → chunks (file r) !! index (file r) = Some c →
  0 < size c - position (handle c) < calcsize t →
  read_int t r
    = (Raise StructError,
       {| file := {| chunks := <[index (file r) := set_position c (size c)]>
                                 (chunks (file r));
                     index := index (file r) |};
          be := be r |}).
Proof.
  intros [Hl Hi] Hc Hrem.
  destruct (laid_out_lookup _ _ _ _ Hl Hc) as (Hsz & ? & ? & ? & _).
  destruct (ChunkedFileIO_read_cases (file r) (calcsize t) c Hc) as (Hne & _).
  pose proof (read_data_length (calcsize t) c ltac:(lia)) as Hlen.
  destruct (calcsize t <? 0) eqn:Hneg; [apply Z.ltb_lt in Hneg; lia|].
  assert (Hd : read_data (calcsize t) c ≠ []).
  { intros He. rewrite He in Hlen. simpl in Hlen. lia. }
  specialize (Hne Hd).
  rewrite (@read_int_short _ ChunkedFileIO_Stream r t _ _ Hne) by lia.
  do 4 f_equal. unfold read_chunk, set_position. do 2 f_equal. lia.
Qed.

Lemma read_int_across_chunks_raises_witness :
  fst (read_int fmt_i
         (BinaryReader_init (built [bytes [1; 2]; bytes [3; 4]])))
    = Raise StructError.
Proof.
  rewrite (read_int_across_chunks_raises
             (BinaryReader_init (built [bytes [1; 2]; bytes [3; 4]])) fmt_i
             (Chunk_init (bytes [1; 2]) 0));
    [reflexivity | wf_by_computation | reflexivity | by_computation].
Defined.

(** ** Reading a fresh stream to its end *)

Lemma read_data_all_fresh (c : Chunk) :
  position (handle c) = 0 → read_data (-1) c = content (handle c).
Proof. intros Hp. unfold read_data, py_slice. by rewrite Hp. Qed.

Lemma read_data_all_exhausted (c : Chunk) :
  position (handle c) = Z.of_nat (length (content (handle c))) →
  read_data (-1) c = [].
Proof.
  intros Hp. unfold read_data, py_slice. rewrite Hp. simpl.
  apply drop_ge. lia.
Qed.

Lemma read_first_source (paths : list (list byte)) (src : list byte) :
  Forall (λ p, p ≠ []) paths → paths !! 0%nat = Some src →
  ∃ st', ChunkedFileIO_read (-1) (built paths) = (Return src, st') ∧
         read_through paths 0 st'.
Proof.
  intros Hall H0.
  assert (Hlk : ∀ i c, chunks (built paths) !! i = Some c →
                       paths !! i = Some (content (handle c)) ∧
                       position (handle c) = 0).
  { intros i c Hc. rewrite built_layout in Hc.
    assert (Hi : (i < length paths)%nat).
    { apply lookup_lt_Some in Hc. rewrite layout_length in Hc.
      pose proof (length_filter (λ p : list byte, (0 < length p)%nat) paths).
      lia. }
    destruct (lookup_lt_is_Some_2 _ _ Hi) as [s Hs].
    rewrite (layout_nonempty paths Hall 0 i s Hs) in Hc.
    inversion Hc; subst. by simpl. }
  assert (Hlen : length (chunks (built paths)) = length paths).
  { rewrite built_layout, layout_length. f_equal.
    clear -Hall. induction Hall as [|p ps Hp _ IH]; [done|].
    rewrite filter_cons_True; [by rewrite IH|].
    destruct p; [done|simpl; lia]. }
  assert (Hc0 : is_Some (chunks (built paths) !! 0%nat)).
  { apply lookup_lt_is_Some_2. rewrite Hlen. by eapply lookup_lt_Some. }
  destruct Hc0 as [c Hc].
  destruct (Hlk _ _ Hc) as [Hsrc Hp].
  assert (Hsrc' : src = content (handle c)) by congruence.
  destruct (ChunkedFileIO_read_cases (built paths) (-1) c Hc) as (Hne & _).
  rewrite (read_data_all_fresh c Hp), <- Hsrc' in Hne.
  assert (Hsne : src ≠ []).
  { rewrite Forall_forall in Hall. apply Hall.
    by eapply list_elem_of_lookup_2. }
  eexists. split; [exact (Hne Hsne)|].
  split; [done|]. simpl. rewrite length_insert. split; [done|].
  intros i c' Hc'. destruct (decide (i = 0%nat)) as [->|Hi].
  - rewrite list_lookup_insert_eq in Hc' by (by eapply lookup_lt_Some).
    inversion Hc'; subst c'. simpl.
    rewrite (read_data_all_fresh c Hp), Hp.
    split; [by rewrite H0, Hsrc'|]. split; [lia|]. split; [lia|lia].
  - rewrite list_lookup_insert_ne in Hc' by done.
    destruct (Hlk _ _ Hc') as [? Hp']. rewrite Hp'.
    split; [done|]. split; [lia|]. split; [done|done].
Qed.

Lemma read_next_source (paths : list (list byte)) (j : nat)
    (st : ChunkedFileIO) (src : list byte) :
  Forall (λ p, p ≠ []) paths → read_through paths j st →
  paths !! Datatypes.S j = Some src →
  ∃ st', ChunkedFileIO_read (-1) st = (Return src, st') ∧
         read_through paths (Datatypes.S j) st'.
Proof.
  intros Hall (Hidx & Hlen & Hlk) Hs. subst j.
  assert (Hj1 : (index st + 1 < length (chunks st))%nat)
    by (rewrite Hlen; apply lookup_lt_Some in Hs; lia).
  destruct (lookup_lt_is_Some_2 (chunks st) (index st) ltac:(lia)) as [c Hc].
  destruct (lookup_lt_is_Some_2 _ _ Hj1) as [c2 Hc2].
  destruct (Hlk _ _ Hc) as (Hsrc & Hp0 & Hpe & _).
  destruct (Hlk _ _ Hc2) as (Hsrc2 & _ & _ & Hp2).
  replace (index st + 1)%nat with (Datatypes.S (index st)) in * by lia.
  assert (Hsrc2' : src = content (handle c2)) by congruence.
  specialize (Hpe eq_refl). specialize (Hp2 ltac:(lia)).
  destruct (ChunkedFileIO_read_cases st (-1) c Hc) as (_ & _ & Hnext).
  replace (index st + 1)%nat with (Datatypes.S (index st)) in * by lia.
  specialize (Hnext (read_data_all_exhausted c Hpe) c2 Hc2).
  rewrite (read_data_all_fresh c2 Hp2), <- Hsrc2' in Hnext.
  eexists. split; [exact Hnext|].
  split; [done|]. simpl. rewrite !length_insert. split; [done|].
  intros i c' Hc'.
  destruct (decide (i = Datatypes.S (index st))) as [->|Hi1].
  - rewrite list_lookup_insert_eq in Hc' by (rewrite length_insert; lia).
    inversion Hc'; subst c'. simpl.
    rewrite (read_data_all_fresh c2 Hp2), Hp2.
    split; [by rewrite Hs, Hsrc2'|]. split; [lia|]. split; [lia|lia].
  - rewrite list_lookup_insert_ne in Hc' by done.
    destruct (decide (i = index st)) as [->|Hi].
    + rewrite list_lookup_insert_eq in Hc' by lia.
      inversion Hc'; subst c'. simpl.
      split; [done|]. split; [lia|]. split; [lia|lia].
    + rewrite list_lookup_insert_ne in Hc' by done.
      destruct (Hlk _ _ Hc') as (? & ? & _ & Hp').
      split; [done|]. split; [done|]. split; [lia|].
      intros Hlt. apply Hp'. lia.
Qed.

Lemma read_times_from (paths : list (list byte)) :
  Forall (λ p, p ≠ []) paths →
  ∀ (k j : nat) (st : ChunkedFileIO) (acc : list (list byte)),
    read_through paths j st → (j + k < length paths)%nat →
    ∃ st',
      for_range k (λ acc, data <- ChunkedFileIO_read (-1) ;; ret (acc ++ [data]))
        acc st
      = (Return (acc ++ take k (drop (Datatypes.S j) paths)), st') ∧
      read_through paths (j + k) st'.
Proof.
  intros Hall. induction k as [|k IH]; intros j st acc Hq Hlt.
  - exists st. simpl. unfold ret. rewrite app_nil_r, Nat.add_0_r. done.
  - destruct (lookup_lt_is_Some_2 paths (Datatypes.S j) ltac:(lia)) as [src Hs].
    destruct (read_next_source paths j st src Hall Hq Hs) as (st1 & Hr & Hq1).
    destruct (IH (Datatypes.S j) st1 (acc ++ [src]) Hq1 ltac:(lia))
      as (st' & Hrest & Hq').
    exists st'. split.
    + simpl. unfold bind at 1. unfold bind at 1. rewrite Hr. unfold ret at 1.
      rewrite Hrest. rewrite (drop_S _ _ _ Hs). simpl.
      by rewrite <- app_assoc.
    + by replace (j + Datatypes.S k)%nat with (Datatypes.S j + k)%nat by lia.
Qed.

(** X6: on a first stream built from non-empty files, successive [read()]
    calls with the default size return the files one by one, in order
    (never more than one file per call), and the call after the last
    file returns no byte. *)
Theorem read_returns_one_source_per_call (paths : list (list byte)) :
  Forall (λ p, p ≠ []) paths → paths ≠ [] →
  ∃ st' st'',
    read_times (length paths) (built paths) = (Return paths, st') ∧
    ChunkedFileIO_read (-1) st' = (Return [], st'').
Proof.
  intros Hall Hne. destruct paths as [|src rest]; [done|].
  destruct (read_first_source (src :: rest) src Hall eq_refl) as (st1 & Hr1 & Hq1).
  destruct (read_times_from (src :: rest) Hall (length rest) 0 st1 [src] Hq1)
    as (st' & Hrest & Hq'); [simpl; lia|].
  assert (Hlast : ∃ st'', ChunkedFileIO_read (-1) st' = (Return [], st'')).
  { destruct Hq' as (Hidx & Hlen & Hlk). simpl in Hidx, Hlen.
    destruct (lookup_lt_is_Some_2 (chunks st') (index st') ltac:(lia)) as [c Hc].
    destruct (Hlk _ _ Hc) as (_ & _ & Hpe & _).
    destruct (ChunkedFileIO_read_cases st' (-1) c Hc) as (_ & Hl & _).
    eexists. apply Hl; [|lia].
    apply read_data_all_exhausted, Hpe. lia. }
  destruct Hlast as [st'' Hlast]. exists st', st''. split; [|done].
  unfold read_times. simpl. unfold bind at 1. unfold bind at 1.
  rewrite Hr1. unfold ret at 1. simpl app. rewrite Hrest.
  simpl drop. rewrite drop_0. by rewrite take_ge by lia.
Qed.

Lemma read_returns_one_source_per_call_witness :
  fst (read_times 2 (built [bytes [1; 2]; bytes [3]]))
    = Return [bytes [1; 2]; bytes [3]].
Proof.
  destruct (read_returns_one_source_per_call [bytes [1; 2]; bytes [3]])
    as (st' & _ & Hr & _); [by repeat constructor | done |].
  change (length [bytes [1; 2]; bytes [3]]) with 2%nat in Hr.
  by rewrite Hr.
Defined.

(** ** Seeking at and beyond the ends *)

(** X7: [seek(0, SEEK_END)] on a well-formed stream succeeds, [tell] then
    returns the total length, and a read returns no byte. *)
Theorem seek_to_end_then_read (st : ChunkedFileIO) (n : Z) :
  wf st →
  ∃ st1 st2,
    ChunkedFileIO_seek 0 whence_END st = (Return tt, st1) ∧
    ChunkedFileIO_tell st1 = (Return (total (chunks st)), st1) ∧
    ChunkedFileIO_read n st1 = (Return [], st2).
Proof.
  intros Hwf. pose proof Hwf as [Hl Hi].
  assert (Hne : chunks st ≠ []) by (intros He; rewrite He in Hi; simpl in Hi; lia).
  assert (Htot : 0 ≤ total (chunks st))
    by (destruct (laid_out_total _ _ Hl); [lia|done]).
  destruct (seek_inside st 0 whence_END (total (chunks st)) Hwf eq_refl)
    as (ca & Ha & Hka & Hseek & Htell & Hwf1); [lia|].
  simpl in Hseek, Htell, Hwf1.
  set (a := seek_target st (total (chunks st))) in *.
  destruct (laid_out_lookup _ _ _ _ Hl Ha) as (Hsz & ? & He & ? & ? & Hle & _).
  assert (Hlast : (length (chunks st) ≤ a + 1)%nat).
  { destruct (chunks st !! (Datatypes.S a)) as [cn|] eqn:Hcn.
    - pose proof (laid_out_adjacent _ _ _ _ _ Hl Ha Hcn).
      destruct (laid_out_lookup _ _ _ _ Hl Hcn) as (_ & ? & ? & _ & _ & ? & _).
      lia.
    - apply lookup_ge_None in Hcn. lia. }
  eexists _, _. split; [exact Hseek|]. split; [exact Htell|].
  match goal with
  | |- ChunkedFileIO_read n ?s = _ =>
      destruct (ChunkedFileIO_read_cases s n (set_position ca (total (chunks st) - start ca)))
        as (_ & Hr & _)
  end.
  { simpl. apply list_lookup_insert_eq. by eapply lookup_lt_Some. }
  apply Hr.
  - rewrite read_data_set_position. apply py_slice_at_end. lia.
  - simpl. rewrite length_insert. lia.
Qed.

Lemma seek_to_end_then_read_witness :
  ∃ st1 st2,
    ChunkedFileIO_seek 0 whence_END (built [bytes [1; 2]; bytes [3]])
      = (Return tt, st1) ∧
    ChunkedFileIO_tell st1 = (Return 3, st1) ∧
    ChunkedFileIO_read 4 st1 = (Return [], st2).
Proof.
  apply (seek_to_end_then_read (built [bytes [1; 2]; bytes [3]]) 4).
  wf_by_computation.
Defined.

Lemma chunk_find_loop_beyond (l : list Chunk) (pos : Z) :
  ∀ cur i, Forall (λ c, end_ c < pos) l → l ≠ [] →
           chunk_find_loop pos cur i l = (i + length l - 1)%nat.
Proof.
  induction l as [|c l IH]; intros cur i Hall Hne; [done|].
  inversion Hall as [|? ? Hc Hl]; subst. simpl.
  destruct (end_ c >=? pos) eqn:Hge; [apply Z.geb_le in Hge; lia|].
  destruct l as [|c' l]; [simpl; lia|].
  rewrite IH by done. simpl. lia.
Qed.

(** X8: a seek that fails is not without effect: below 0 it leaves the
    cursor on the first chunk, above the total on the last chunk; the
    chunks themselves are unchanged. *)
Theorem failed_seek_moves_cursor (st : ChunkedFileIO) (offset whence pos : Z) :
  wf st → resolve st offset whence = Some pos →
  (pos < 0 →
   ChunkedFileIO_seek offset whence st
     = (Raise (ValueError_offset pos), {| chunks := chunks st; index := 0 |})) ∧
  (total (chunks st) < pos →
   ∃ off, 0 < off ∧
     ChunkedFileIO_seek offset whence st
       = (Raise (ValueError_offset off),
          {| chunks := chunks st;
             index := (length (chunks st) - 1)%nat |})).
Proof.
  intros Hwf Hres. pose proof Hwf as [Hl Hi].
  destruct (lookup_lt_is_Some_2 _ _ Hi) as [c0 Hc0].
  destruct (laid_out_lookup _ _ _ _ Hl Hc0) as (? & ? & ? & ? & ? & ? & _).
  assert (Hsome : is_Some (chunks st !! index st)) by eauto.
  split; intros Hpos.
  - assert (Ht : seek_target st pos = 0%nat).
    { unfold seek_target. rewrite Hc0.
      destruct (pos <? start c0) eqn:Hlt; [|apply Z.ltb_ge in Hlt; lia].
      simpl. destruct (chunks st) as [|c l] eqn:Hch; [done|].
      destruct Hl as (? & ? & ? & ? & _). simpl.
      destruct (end_ c >=? pos) eqn:Hge; [done|].
      rewrite Z.geb_leb in Hge. apply Z.leb_gt in Hge. lia. }
    rewrite (ChunkedFileIO_seek_eq st offset whence pos Hsome Hres), Ht.
    destruct (chunks st) as [|c l] eqn:Hch; [done|].
    destruct Hl as (Hs & ? & ? & ? & _).
    rewrite (on_chunk_at _ _ 0%nat c) by done.
    rewrite Chunk_seek_outside by lia. simpl. rewrite Hs.
    by rewrite Z.sub_0_r.
  - assert (Ht : seek_target st pos = (length (chunks st) - 1)%nat).
    { unfold seek_target. rewrite Hc0.
      destruct (pos >? end_ c0) eqn:Hgt;
        [|rewrite Z.gtb_ltb in Hgt; apply Z.ltb_ge in Hgt; lia].
      rewrite orb_true_r. rewrite chunk_find_loop_beyond; [lia| |].
      - apply Forall_lookup. intros i c Hc.
        destruct (laid_out_lookup _ _ _ _ Hl Hc) as (_ & _ & _ & _ & _ & ? & _).
        lia.
      - intros He. by rewrite He in Hc0. }
    destruct (seek_target_spec st pos Hwf) as (c & Hc & _ & Hout).
    destruct (laid_out_lookup _ _ _ _ Hl Hc) as (? & ? & ? & ? & ? & ? & _).
    exists (pos - start c). split; [lia|].
    rewrite (ChunkedFileIO_seek_eq st offset whence pos Hsome Hres).
    rewrite (on_chunk_at _ _ _ c) by done.
    rewrite Chunk_seek_outside by lia. simpl.
    by rewrite list_insert_id, Ht.
Qed.

Lemma failed_seek_moves_cursor_witness :
  ∃ off,
    ChunkedFileIO_seek 9 whence_SET (built [bytes [1; 2]; bytes [3]])
      = (Raise (ValueError_offset off),
         {| chunks := chunks (built [bytes [1; 2]; bytes [3]]); index := 1 |}).
Proof.
  destruct (failed_seek_moves_cursor (built [bytes [1; 2]; bytes [3]])
              9 whence_SET 9) as [_ Hhigh];
    [wf_by_computation | reflexivity |].
  destruct Hhigh as (off & _ & Hs); [by_computation|].
  exists off. exact Hs.
Defined.

(** X9: with an active chunk, a [whence] other than 0, 1 and 2 makes
    [seek] raise [NotImplementedError] and leaves the stream as it was. *)
Theorem seek_unknown_whence (st : ChunkedFileIO) (offset whence : Z) :
  is_Some (chunks st !! index st) →
  whence ≠ whence_SET → whence ≠ whence_CUR → whence ≠ whence_END →
  ChunkedFileIO_seek offset whence st = (Raise NotImplementedError_whence, st).
Proof.
  intros [c Hc] H0 H1 H2. unfold ChunkedFileIO_seek.
  unfold bind at 1. rewrite (chunk_at st c Hc).
  apply Z.eqb_neq in H0, H1, H2. rewrite H0, H1, H2. reflexivity.
Qed.

Lemma seek_unknown_whence_witness :
  ChunkedFileIO_seek 0 3 (built [bytes [1]])
    = (Raise NotImplementedError_whence, built [bytes [1]]).
Proof.
  apply (seek_unknown_whence (built [bytes [1]]) 0 3);
    [by eexists | by_computation..].
Defined.

(** ** The values the integer reads return *)

Lemma byte_val_range (b : byte) : 0 ≤ byte_val b ≤ 255.
Proof. unfold byte_val. pose proof (Byte.to_N_bounded b). lia. Qed.

Lemma le_uint_range (data : list byte) :
  0 ≤ le_uint data < 2 ^ (8 * Z.of_nat (length data)).
Proof.
  induction data as [|b data IH]; [simpl; lia|].
  pose proof (byte_val_range b).
  replace (8 * Z.of_nat (length (b :: data)))
    with (8 + 8 * Z.of_nat (length data)) by (simpl length; lia).
  rewrite Z.pow_add_r by lia. change (2 ^ 8) with 256.
  cbn [le_uint]. nia.
Qed.

Lemma unpack_range (big : bool) (t : IntType) (data : list byte) (v : Z) :
  unpack big t data = Some v →
  if is_signed t
  then - 2 ^ (8 * calcsize t - 1) ≤ v < 2 ^ (8 * calcsize t - 1)
  else 0 ≤ v < 2 ^ (8 * calcsize t).
Proof.
  unfold unpack. destruct (Z.of_nat (length data) =? calcsize t) eqn:He; [|done].
  apply Z.eqb_eq in He. intros Hv. inversion Hv as [Hv']. clear Hv Hv'.
  assert (Hr : 0 ≤ le_uint (if big then rev data else data)
               < 2 ^ (8 * calcsize t)).
  { rewrite <- He. destruct big; [|apply le_uint_range].
    rewrite <- (length_rev data). apply le_uint_range. }
  assert (Hpow : 2 ^ (8 * calcsize t) = 2 * 2 ^ (8 * calcsize t - 1)).
  { rewrite <- Z.pow_succ_r by (destruct t; simpl; lia). f_equal. lia. }
  destruct (is_signed t); [|done]. unfold to_signed.
  destruct (_ >=? _) eqn:Hge; [apply Z.geb_le in Hge|
    rewrite Z.geb_leb in Hge; apply Z.leb_gt in Hge]; lia.
Qed.

(** X10: on any stream, a value [read_int] returns lies in the range of
    its format: two's-complement for h, i and q, unsigned for H, I and
    Q. *)
Theorem read_int_in_range {S} `{Stream S} (r r' : BinaryReader S)
    (t : IntType) (v : Z) :
  read_int t r = (Return v, r') →
  if is_signed t
  then - 2 ^ (8 * calcsize t - 1) ≤ v < 2 ^ (8 * calcsize t - 1)
  else 0 ≤ v < 2 ^ (8 * calcsize t).
Proof.
  unfold read_int, read_struct, bind, get, on_file.
  destruct (file_read (calcsize t) (file r)) as [[data| |] f']; try done.
  destruct (unpack (be r) t data) as [v'|] eqn:Hu; [|done].
  intros Hv. inversion Hv; subst. by eapply unpack_range.
Qed.

Lemma read_int_in_range_witness :
  - 2 ^ (8 * calcsize fmt_h - 1) ≤ -2 < 2 ^ (8 * calcsize fmt_h - 1).
Proof.
  apply (read_int_in_range
           (BinaryReader_init (open (bytes [254; 255])))
           (advance (BinaryReader_init (open (bytes [254; 255]))) 2)
           fmt_h (-2)).
  reflexivity.
Defined.

(** X11: on any stream, [read_int8] returns [None] or an unsigned byte
    value: despite its name it never returns a negative number. *)
Theorem read_int8_is_unsigned {S} `{Stream S} (r r' : BinaryReader S) (v : Z) :
  read_int8 r = (Return (Some v), r') → 0 ≤ v ≤ 255.
Proof.
  unfold read_int8, bind, on_file.
  destruct (file_read 1 (file r)) as [[data| |] f']; try done.
  destruct data as [|b data]; [done|].
  intros Hv. inversion Hv; subst. apply byte_val_range.
Qed.

Lemma read_int8_is_unsigned_witness : 0 ≤ 255 ≤ 255.
Proof.
  apply (read_int8_is_unsigned
           (BinaryReader_init (open (bytes [255])))
           (advance (BinaryReader_init (open (bytes [255]))) 1) 255).
  reflexivity.
Defined.

(** ** The header on a plain file *)

Lemma read_int_plain_cases (r : BinaryReader Handle) (t : IntType) :
  0 ≤ position (file r) →
  let rest := remaining (file r) in
  if decide (calcsize t ≤ Z.of_nat (length rest))
  then ∃ v, unpack (be r) t (take (Z.to_nat (calcsize t)) rest) = Some v ∧
            read_int t r = (Return v, advance r (Z.to_nat (calcsize t)))
  else read_int t r = (Raise StructError, advance r (length rest)).
Proof.
  intros Hp rest. assert (Hsz : 0 < calcsize t) by (by destruct t).
  destruct (decide _) as [Hle|Hgt].
  - assert (Hlen : length (take (Z.to_nat (calcsize t)) rest)
                   = Z.to_nat (calcsize t)) by (rewrite length_take; lia).
    assert (Hu : is_Some (unpack (be r) t (take (Z.to_nat (calcsize t)) rest))).
    { unfold unpack. rewrite Hlen, Z2Nat.id, Z.eqb_refl by lia. eauto. }
    destruct Hu as [v Hu]. exists v. split; [done|].
    destruct (read_int_plain r t (take (Z.to_nat (calcsize t)) rest)
                (drop (Z.to_nat (calcsize t)) rest) v Hp)
      as [Hr _]; [by rewrite take_drop|done|].
    by rewrite Hlen in Hr.
  - pose proof (read_plain_file r (calcsize t) ltac:(lia)) as Hr.
    unfold on_file in Hr.
    destruct (file_read (calcsize t) (file r)) as [o f'] eqn:Hf.
    inversion Hr as [[Ho Hf']]. subst o. fold rest in Hf, Hf' |- *.
    rewrite take_ge in * by lia.
    rewrite (read_int_short r t _ f' Hf) by lia. by rewrite Hf'.
Qed.

(** X12: a plain file that starts with a version-15 header whose
    [dataOffset] and [metadataSize] do not exceed [fileSize] gives a header
    with exactly those four fields and the endianness byte; the reader is
    left in little-endian mode just after the reserved bytes. *)
Theorem header_version_15_decodes (r : BinaryReader Handle)
    (bms bfs bv bdo rest : list byte) (ms fs do_ : Z) :
  0 ≤ position (file r) →
  remaining (file r) = bms ++ bfs ++ bv ++ bdo ++ rest →
  unpack true fmt_i bms = Some ms → unpack true fmt_i bfs = Some fs →
  unpack true fmt_i bv = Some 15 → unpack true fmt_i bdo = Some do_ →
  do_ ≤ fs → ms ≤ fs →
  read_header r
    = (Return {| metadataSize := ms; fileSize := fs; version := 15;
                 dataOffset := do_;
                 endianness := Some (byte_val <$> head rest) |},
       {| file := {| content := content (file r);
                     position := position (file r) + 16
                                 + Z.of_nat (length (take 4 rest)) |};
          be := false |}).
Proof.
  intros Hp Hr Hms Hfs Hv Hdo Hdofs Hmsfs.
  rewrite (read_header_plain r bms bfs bv bdo rest ms fs 15 do_) by done.
  destruct (do_ >? fs) eqn:H1; [rewrite Z.gtb_ltb in H1; apply Z.ltb_lt in H1; lia|].
  destruct (ms >? fs) eqn:H2; [rewrite Z.gtb_ltb in H2; apply Z.ltb_lt in H2; lia|].
  reflexivity.
Qed.

Lemma header_version_15_decodes_witness :
  fst (read_header
         (BinaryReader_init
            (open (bytes [0; 0; 0; 100] ++ bytes [0; 0; 3; 232]
                   ++ bytes [0; 0; 0; 15] ++ bytes [0; 0; 1; 244]
                   ++ bytes [0; 0; 0; 0]))))
    = Return {| metadataSize := 100; fileSize := 1000; version := 15;
                dataOffset := 500; endianness := Some (Some 0) |}.
Proof.
  rewrite (header_version_15_decodes _
             (bytes [0; 0; 0; 100]) (bytes [0; 0; 3; 232])
             (bytes [0; 0; 0; 15]) (bytes [0; 0; 1; 244])
             (bytes [0; 0; 0; 0]) 100 1000 500);
    [reflexivity | by_computation | reflexivity | reflexivity | reflexivity
    | reflexivity | reflexivity | lia | lia].
Defined.

(** X13: whatever the version, a header whose [dataOffset] exceeds
    [fileSize] raises the invalid-[dataOffset] error, and otherwise one
    whose [metadataSize] exceeds [fileSize] raises the
    invalid-[metadataSize] error; the reader is left after the four
    fields, still in big-endian mode. *)
Theorem header_invalid_sizes (r : BinaryReader Handle)
    (bms bfs bv bdo rest : list byte) (ms fs v do_ : Z) :
  0 ≤ position (file r) →
  remaining (file r) = bms ++ bfs ++ bv ++ bdo ++ rest →
  unpack true fmt_i bms = Some ms → unpack true fmt_i bfs = Some fs →
  unpack true fmt_i bv = Some v → unpack true fmt_i bdo = Some do_ →
  let r16 := advance {| file := file r; be := true |} 16 in
  (fs < do_ → read_header r = (Raise (RuntimeError_dataOffset do_), r16)) ∧
  (do_ ≤ fs → fs < ms →
   read_header r = (Raise (RuntimeError_metadataSize ms), r16)).
Proof.
  intros Hp Hr Hms Hfs Hv Hdo r16.
  rewrite (read_header_plain r bms bfs bv bdo rest ms fs v do_) by done.
  fold r16. split.
  - intros H1. apply Z.gtb_lt in H1. by rewrite H1.
  - intros H1 H2. apply Z.gtb_lt in H2. rewrite H2.
    destruct (do_ >? fs) eqn:H3; [apply Z.gtb_lt in H3; lia|done].
Qed.

Lemma header_invalid_sizes_witness :
  fst (read_header
         (BinaryReader_init
            (open (bytes [0; 0; 0; 9] ++ bytes [0; 0; 0; 5]
                   ++ bytes [0; 0; 0; 15] ++ bytes [0; 0; 0; 0] ++ []))))
    = Raise (RuntimeError_metadataSize 9).
Proof.
  destruct (header_invalid_sizes
              (BinaryReader_init
                 (open (bytes [0; 0; 0; 9] ++ bytes [0; 0; 0; 5]
                        ++ bytes [0; 0; 0; 15] ++ bytes [0; 0; 0; 0] ++ [])))
              (bytes [0; 0; 0; 9]) (bytes [0; 0; 0; 5])
              (bytes [0; 0; 0; 15]) (bytes [0; 0; 0; 0]) [] 9 5 15 0)
    as [_ Hms];
    [by_computation | reflexivity | reflexivity | reflexivity | reflexivity
    | reflexivity |].
  rewrite Hms; [reflexivity | lia | lia].
Defined.

(** X14: a plain file with fewer than 16 bytes left makes [read_header]
    raise the [struct] error, the bytes that were there consumed. *)
Theorem header_too_short (r : BinaryReader Handle) :
  0 ≤ position (file r) →
  (length (remaining (file r)) < 16)%nat →
  read_header r
    = (Raise StructError,
       advance {| file := file r; be := true |} (length (remaining (file r)))).
Proof.
  intros Hp Hshort.
  set (r0 := {| file := file r; be := true |}).
  assert (Hstep : ∀ (k : nat) (rk : BinaryReader Handle),
            rk = advance r0 k → (k ≤ length (remaining (file r)))%nat →
            0 ≤ position (file rk) ∧
            length (remaining (file rk)) = (length (remaining (file r)) - k)%nat).
  { intros k rk -> Hk. split; [simpl; lia|].
    rewrite remaining_advance by done. simpl. by rewrite length_drop. }
  assert (Hcase : ∀ k : nat,
            (k ≤ length (remaining (file r)))%nat →
            (4 ≤ length (remaining (file r)) - k)%nat ∧
            (∃ v, read_int fmt_i (advance r0 k) = (Return v, advance r0 (k + 4)))
            ∨ (length (remaining (file r)) - k < 4)%nat ∧
              read_int fmt_i (advance r0 k)
              = (Raise StructError, advance r0 (length (remaining (file r))))).
  { intros k Hk. destruct (Hstep k _ eq_refl Hk) as [Hpk Hlk].
    pose proof (read_int_plain_cases (advance r0 k) fmt_i Hpk) as C.
    cbv zeta in C. rewrite Hlk in C.
    change (calcsize fmt_i) with 4 in C. change (Z.to_nat 4) with 4%nat in C.
    destruct (decide _) as [Hle|Hgt].
    - left. split; [lia|]. destruct C as (v & _ & ->).
      exists v. by rewrite advance_advance.
    - right. split; [lia|]. rewrite C, advance_advance. do 2 f_equal. lia. }
  unfold read_header. unfold bind at 1. unfold set_be at 1. fold r0.
  rewrite <- (advance_0 r0) at 1.
  unfold bind at 1. unfold read_int32 at 1.
  destruct (Hcase 0%nat ltac:(lia)) as [[? [v1 ->]]|[_ ->]]; [|done].
  cbn [Nat.add].
  unfold bind at 1. unfold read_int32 at 1.
  destruct (Hcase 4%nat ltac:(lia)) as [[? [v2 ->]]|[_ ->]]; [|done].
  cbn [Nat.add].
  unfold bind at 1. unfold read_int32 at 1.
  destruct (Hcase 8%nat ltac:(lia)) as [[? [v3 ->]]|[_ ->]]; [|done].
  cbn [Nat.add].
  unfold bind at 1. unfold read_int32 at 1.
  destruct (Hcase 12%nat ltac:(lia)) as [[? _]|[_ ->]]; [lia|done].
Qed.

Lemma header_too_short_witness :
  fst (read_header (BinaryReader_init (open (bytes [0; 0; 0; 1; 0; 0]))))
    = Raise StructError.
Proof.
  rewrite (header_too_short
             (BinaryReader_init (open (bytes [0; 0; 0; 1; 0; 0]))));
    [reflexivity | by_computation | by_computation].
Defined.

(** ** Strings and identifiers on a plain file *)

Lemma read_cstring_loop_zero {S} `{Stream S} (fuel : nat) (buf : list Z)
    (r : BinaryReader S) :
  read_cstring_loop fuel buf (Some 0) r = (Return buf, r).
Proof. by destruct fuel. Qed.

Lemma read_cstring_loop_terminated (s : list byte) :
  ∀ (fuel : nat) (buf : list Z) (v : Z) (r : BinaryReader Handle)
    (rest : list byte),
    0 ≤ position (file r) → remaining (file r) = s ++ x00 :: rest →
    Forall (λ b, byte_val b ≠ 0) s → v ≠ 0 → (length s < fuel)%nat →
    read_cstring_loop fuel buf (Some v) r
      = (Return (buf ++ v :: map byte_val s), advance r (length s + 1)).
Proof.
  induction s as [|b s IH]; intros fuel buf v r rest Hp Hr Hnz Hv Hfuel.
  - destruct fuel as [|fuel]; [simpl in Hfuel; lia|].
    destruct v; [done| |]; simpl; unfold bind;
      rewrite (read_int8_byte r x00 rest Hr);
      change (byte_val x00) with 0; by rewrite read_cstring_loop_zero.
  - destruct fuel as [|fuel]; [simpl in Hfuel; lia|].
    inversion Hnz as [|? ? Hb Hs]; subst.
    assert (Hstep : read_cstring_loop (Datatypes.S fuel) buf (Some v) r
                    = read_cstring_loop fuel (buf ++ [v]) (Some (byte_val b))
                        (advance r 1)).
    { destruct v; [done| |]; simpl; unfold bind;
        by rewrite (read_int8_byte r b (s ++ x00 :: rest) Hr). }
    rewrite Hstep.
    rewrite (IH fuel (buf ++ [v]) (byte_val b) (advance r 1) rest).
    + rewrite advance_advance, <- app_assoc. done.
    + simpl. lia.
    + rewrite remaining_advance by done. by rewrite Hr.
    + done.
    + done.
    + simpl in Hfuel. lia.
Qed.

(** X15: on a plain file whose remaining bytes are [s], a zero byte and
    [rest], with no zero byte in [s], [read_cstring] consumes [s] and the
    terminator; it returns [s] as a string when every byte of [s] is below
    128 and raises [UnicodeDecodeError] otherwise. *)
Theorem read_cstring_terminated (r : BinaryReader Handle) (fuel : nat)
    (s rest : list byte) :
  0 ≤ position (file r) → remaining (file r) = s ++ x00 :: rest →
  Forall (λ b, byte_val b ≠ 0) s → (length s ≤ fuel)%nat →
  read_cstring fuel r
    = (if forallb (λ b, b <? 128) (map byte_val s)
       then Return (py_str (map byte_val s))
       else Raise UnicodeDecodeError,
       advance r (length s + 1)).
Proof.
  intros Hp Hr Hnz Hfuel. unfold read_cstring.
  destruct s as [|b s].
  - unfold bind. rewrite (read_int8_byte r x00 rest Hr).
    change (byte_val x00) with 0. by rewrite read_cstring_loop_zero.
  - inversion Hnz as [|? ? Hb Hs]; subst.
    unfold bind at 1. rewrite (read_int8_byte r b (s ++ x00 :: rest) Hr).
    unfold bind.
    rewrite (read_cstring_loop_terminated s fuel [] (byte_val b)
               (advance r 1) rest);
      [|simpl; lia|rewrite remaining_advance by done; by rewrite Hr
       |done|done|simpl in Hfuel; lia].
    rewrite advance_advance. unfold decode_ascii.
    change ([] ++ byte_val b :: map byte_val s) with (map byte_val (b :: s)).
    change (1 + (length s + 1))%nat with (length (b :: s) + 1)%nat.
    by destruct (forallb _ _).
Qed.

Lemma read_cstring_terminated_witness :
  read_cstring 2 (BinaryReader_init (open (bytes [97; 98; 0; 99])))
    = (Return "ab"%string,
       advance (BinaryReader_init (open (bytes [97; 98; 0; 99]))) 3).
Proof.
  apply (read_cstring_terminated
           (BinaryReader_init (open (bytes [97; 98; 0; 99]))) 2
           (bytes [97; 98]) (bytes [99])).
  - by_computation.
  - reflexivity.
  - repeat constructor; by_computation.
  - by_computation.
Defined.

(** X16: [read_uuid] on a plain file returns the next 16 bytes and moves
    16 bytes on; with fewer than 16 bytes left it consumes them and raises
    the [ValueError] of [UUID]. *)
Theorem read_uuid_plain (r : BinaryReader Handle) :
  0 ≤ position (file r) →
  read_uuid r
    = if decide (16 ≤ length (remaining (file r)))%nat
      then (Return (take 16 (remaining (file r))), advance r 16)
      else (Raise ValueError_uuid, advance r (length (remaining (file r)))).
Proof.
  intros Hp. unfold read_uuid, read, bind.
  rewrite read_plain_file by lia. change (Z.to_nat 16) with 16%nat.
  rewrite length_take.
  destruct (decide _) as [Hle|Hgt].
  - rewrite Nat.min_l by done. simpl. done.
  - rewrite Nat.min_r by lia.
    destruct (length (remaining (file r)) =? 16)%nat eqn:He;
      [apply Nat.eqb_eq in He; lia|].
    done.
Qed.

Lemma read_uuid_plain_witness :
  read_uuid (BinaryReader_init (open (bytes [1; 2; 3])))
    = (Raise ValueError_uuid,
       advance (BinaryReader_init (open (bytes [1; 2; 3]))) 3).
Proof.
  rewrite (read_uuid_plain (BinaryReader_init (open (bytes [1; 2; 3]))));
    [reflexivity | by_computation].
Defined.

Lemma align_plain_file_witness :
  align 4 (advance (BinaryReader_init (open (bytes [1; 2]))) 5)
    = (Return tt, advance (BinaryReader_init (open (bytes [1; 2]))) 8).
Proof.
  apply (align_plain_file
           (advance (BinaryReader_init (open (bytes [1; 2]))) 5) 4);
    by_computation.
Defined.

(** ** Counts and shape of what the decoder returns *)

Lemma for_range_invariant {S A} (P : A → Prop) (body : A → M S A) :
  (∀ acc r acc' r', P acc → body acc r = (Return acc', r') → P acc') →
  ∀ n acc r acc' r',
    P acc → for_range n body acc r = (Return acc', r') → P acc'.
Proof.
  intros Hbody. induction n as [|n IH]; intros acc r acc' r' Hp Hf.
  - inversion Hf; by subst.
  - simpl in Hf. unfold bind in Hf.
    destruct (body acc r) as [[a| |] r1] eqn:Hb; try done.
    eapply IH; [|exact Hf]. by eapply Hbody.
Qed.

Lemma for_range_count {S A} (μ : A → nat) (body : A → M S A) :
  (∀ acc r acc' r', body acc r = (Return acc', r') →
                    μ acc' = Datatypes.S (μ acc)) →
  ∀ n acc r acc' r',
    for_range n body acc r = (Return acc', r') → μ acc' = (n + μ acc)%nat.
Proof.
  intros Hbody. induction n as [|n IH]; intros acc r acc' r' Hf.
  - inversion Hf; by subst.
  - simpl in Hf. unfold bind in Hf.
    destruct (body acc r) as [[a| |] r1] eqn:Hb; try done.
    rewrite (IH _ _ _ _ Hf), (Hbody _ _ _ _ Hb). lia.
Qed.

Lemma read_types_entry_returns {S} `{Stream S} (emb : option bool)
    (classes classes' : gmap Z BClass) (r r' : BinaryReader S) :
  read_types_entry emb classes r = (Return classes', r') →
  emb = Some false ∧ base.size classes' = Datatypes.S (base.size classes).
Proof.
  unfold read_types_entry, bind. case_binds.
  all: intros Heq; inversion Heq; subst.
  all: split; [done|]; by apply map_size_insert_None.
Qed.

Lemma read_objects_entry_returns {S} `{Stream S} (hd : Header)
    (objects objects' : gmap Z Obj) (r r' : BinaryReader S) :
  read_objects_entry hd objects r = (Return objects', r') →
  ∃ k o, objects !! k = None ∧ objects' = <[k := o]> objects ∧
         (version hd = 15 →
          is_Some (script_type_index o) ∧ is_destroyed o = None ∧
          is_Some (stripped o)).
Proof.
  unfold read_objects_entry, bind. case_binds.
  all: intros Heq; inversion Heq; subst.
  all: eexists _, _; split; [eassumption|]; split; [reflexivity|].
  all: intros Hv; rewrite Hv in *; simpl in *; try done.
  all: repeat match goal with
         | Hx : (let (_, _) := ?x in _) = _ |- _ =>
             destruct x as [[?| |] ?]; try done
         end.
  all: unfold ret in *.
  all: repeat match goal with
         | Hx : (Return _, _) = (Return _, _) |- _ =>
             inversion Hx; subst; clear Hx
         end; simpl; eauto.
Qed.

(** X17: on any stream, an object index that [read_objects] returns has as
    many entries as the count it read first (none for a negative count),
    and under a version-15 header every entry carries a script-type index
    and a stripped flag and no destroyed flag. *)
Theorem read_objects_count {S} `{Stream S} (hd : Header)
    (r r' : BinaryReader S) (ob : gmap Z Obj) :
  read_objects hd r = (Return ob, r') →
  ∃ cnt r1, read_int32 r = (Return cnt, r1) ∧
            base.size ob = Z.to_nat cnt ∧
            (version hd = 15 →
             ∀ k o, ob !! k = Some o →
                    is_Some (script_type_index o) ∧ is_destroyed o = None ∧
                    is_Some (stripped o)).
Proof.
  unfold read_objects, bind.
  destruct (read_int32 r) as [[cnt| |] r1] eqn:Hc; try done.
  intros Hf. exists cnt, r1. split; [done|]. split.
  - assert (Hbody : ∀ acc r0 acc' r0',
              read_objects_entry hd acc r0 = (Return acc', r0') →
              base.size acc' = Datatypes.S (base.size acc)).
    { intros acc r0 acc' r0' Hb.
      destruct (read_objects_entry_returns _ _ _ _ _ Hb)
        as (k & o & Hk & -> & _).
      by apply map_size_insert_None. }
    rewrite (for_range_count base.size _ Hbody _ _ _ _ _ Hf).
    rewrite map_size_empty. lia.
  - intros Hv.
    apply (for_range_invariant
             (λ m : gmap Z Obj, ∀ k o, m !! k = Some o →
                is_Some (script_type_index o) ∧ is_destroyed o = None ∧
                is_Some (stripped o))
             (read_objects_entry hd)) with (n := Z.to_nat cnt) (acc := ∅)
             (r := r1) (r' := r'); [|done|done].
    intros acc r0 acc' r0' Hacc Hb k o Hko.
    destruct (read_objects_entry_returns _ _ _ _ _ Hb)
      as (k' & o' & Hk' & -> & Ho').
    destruct (decide (k' = k)) as [->|Hne].
    + rewrite lookup_insert_eq in Hko. inversion Hko; subst. by apply Ho'.
    + rewrite lookup_insert_ne in Hko by done. by eapply Hacc.
Qed.

Lemma read_objects_count_witness :
  ∃ ob r', read_objects header_15 (BinaryReader_init (open one_object_index))
           = (Return ob, r') ∧
           base.size ob = 1%nat.
Proof.
  destruct (read_objects header_15 (BinaryReader_init (open one_object_index)))
    as [[ob| |] r'] eqn:Hr; [|by vm_compute in Hr..].
  destruct (read_objects_count header_15 _ r' ob Hr) as (cnt & r1 & Hc & Hs & _).
  exists ob, r'. split; [done|]. rewrite Hs.
  vm_compute in Hc. by inversion Hc.
Defined.

(** X18: on any stream, the script-type table and the externals that
    [read_script_types] and [read_externals] return have as many entries
    as the count each read first. *)
Theorem read_lists_count {S} `{Stream S} (fuel : nat) (hd : Header)
    (r r' : BinaryReader S) :
  (∀ l, read_script_types r = (Return l, r') →
        ∃ cnt r1, read_int32 r = (Return cnt, r1) ∧ length l = Z.to_nat cnt) ∧
  (∀ l, read_externals fuel hd r = (Return l, r') →
        ∃ cnt r1, read_int32 r = (Return cnt, r1) ∧ length l = Z.to_nat cnt).
Proof.
  split; intros l; unfold read_script_types, read_externals, bind;
    destruct (read_int32 r) as [[cnt| |] r1] eqn:Hc; try done;
    intros Hf; exists cnt, r1; (split; [done|]).
  - apply (for_range_count (A := list ScriptType) length) in Hf;
      [simpl in Hf; lia|].
    intros acc r0 acc' r0'. unfold bind. case_binds.
    intros Heq. inversion Heq; subst. rewrite length_app. simpl. lia.
  - apply (for_range_count (A := list External) length) in Hf;
      [simpl in Hf; lia|].
    intros acc r0 acc' r0'. unfold bind. case_binds.
    all: intros Heq; inversion Heq; subst; rewrite length_app; simpl; lia.
Qed.

Lemma read_lists_count_witness :
  ∃ l r', read_script_types (BinaryReader_init (open one_script_type))
          = (Return l, r') ∧
          length l = 1%nat.
Proof.
  destruct (read_script_types (BinaryReader_init (open one_script_type)))
    as [[l| |] r'] eqn:Hr; [|by vm_compute in Hr..].
  destruct (read_lists_count 0 header_15
              (BinaryReader_init (open one_script_type)) r') as [Hs _].
  destruct (Hs l Hr) as (cnt & r1 & Hc & Hl).
  exists l, r'. split; [done|]. rewrite Hl.
  vm_compute in Hc. by inversion Hc.
Defined.

Lemma read_header_returns {S} `{Stream S} (r r' : BinaryReader S) (hd : Header) :
  read_header r = (Return hd, r') →
  version hd = 15 ∧ dataOffset hd ≤ fileSize hd ∧
  metadataSize hd ≤ fileSize hd ∧ is_Some (endianness hd) ∧ be r' = false.
Proof.
  intros Hh. pose proof (read_header_version r r' hd Hh) as Hv.
  revert Hh. unfold read_header, bind. simpl. case_binds.
  all: intros Heq; inversion Heq; subst; simpl in *; subst.
  all: repeat match goal with
         | Hx : (_ >? _) = false |- _ =>
             rewrite Z.gtb_ltb in Hx; apply Z.ltb_ge in Hx
         | Hx : (15 >=? 9) = false |- _ => done
         | Hx : (15 >? 5) = false |- _ => done
         end.
  all: change (15 >=? 9) with true in *; change (15 >? 5) with true in *.
  all: cbv beta iota in *.
  all: repeat match goal with
         | Hx : (let (_, _) := ?x in _) = _ |- _ =>
             destruct x as [[?| |] ?]; try done
         end.
  all: clear Heq; unfold ret, set_be in *.
  all: repeat match goal with
         | Hx : (Return _, _) = (Return _, _) |- _ =>
             inversion Hx; subst; clear Hx
         end; simpl; eauto 10.
Qed.

Lemma read_types_loop_embedded {S} `{Stream S} (emb : option bool) :
  emb ≠ Some false →
  ∀ n acc (r r' : BinaryReader S) m,
    for_range n (read_types_entry emb) acc r = (Return m, r') → m = acc.
Proof.
  intros Hemb n acc r r' m Hf. destruct n as [|n].
  - by inversion Hf.
  - simpl in Hf. unfold bind in Hf.
    destruct (read_types_entry emb acc r) as [[a| |] r1] eqn:Hb; try done.
    by destruct (read_types_entry_returns _ _ _ _ _ Hb) as [-> _].
Qed.

Lemma read_types_returns {S} `{Stream S} (fuel : nat) (hd : Header)
    (r r' : BinaryReader S) (ty : Types) :
  version hd = 15 → read_types fuel hd r = (Return ty, r') →
  is_Some (signature ty) ∧ is_Some (attributes ty) ∧ is_Some (embedded ty) ∧
  (classes ty ≠ ∅ → embedded ty = Some false).
Proof.
  intros Hv. unfold read_types. rewrite Hv. simpl. unfold bind.
  case_binds. intros Heq. inversion Heq; subst; simpl.
  repeat match goal with
         | Hx : (let (_, _) := ?x in _) = _ |- _ =>
             destruct x as [[?| |] ?]; try done
         end.
  unfold ret in *.
  repeat match goal with
         | Hx : (Return _, _) = (Return _, _) |- _ =>
             inversion Hx; subst; clear Hx
         end; simpl.
  split; [eauto|]. split; [eauto|]. split; [eauto|].
  intros Hne.
  match goal with
  | |- ?e = Some false => destruct (decide (e = Some false)) as [|Hd]; [done|]
  end.
  exfalso. apply Hne.
  eapply read_types_loop_embedded; [exact Hd|eassumption].
Qed.

(** X19: on any stream, a document that [read] returns has version 15,
    [dataOffset] and [metadataSize] within [fileSize], the endianness
    byte, the signature, attributes and embedded flag of the type table
    and a script-type table; its type table holds a class only if the
    embedded flag is false. *)
Theorem returned_document_shape {S} `{Stream S} (fuel : nat)
    (r r' : BinaryReader S) (sf : SerializedFile) :
  read_sections fuel r = (Return sf, r') →
  version (header sf) = 15 ∧
  dataOffset (header sf) ≤ fileSize (header sf) ∧
  metadataSize (header sf) ≤ fileSize (header sf) ∧
  is_Some (endianness (header sf)) ∧
  is_Some (signature (types sf)) ∧ is_Some (attributes (types sf)) ∧
  is_Some (embedded (types sf)) ∧
  (classes (types sf) ≠ ∅ → embedded (types sf) = Some false) ∧
  is_Some (script_types sf).
Proof.
  unfold read_sections, bind.
  destruct (read_header r) as [[hd| |] r1] eqn:Hh; try done.
  destruct (read_header_returns _ _ _ Hh) as (Hv & Hdo & Hms & He & _).
  destruct (read_types fuel hd r1) as [[ty| |] r2] eqn:Ht; try done.
  destruct (read_types_returns _ _ _ _ _ Hv Ht) as (Hs & Ha & Hem & Hcl).
  destruct (read_objects hd r2) as [[ob| |] r3]; try done.
  rewrite Hv. simpl.
  destruct (read_script_types r3) as [[l| |] r4]; try done. simpl.
  destruct (read_externals fuel hd r4) as [[ex| |] r5]; try done.
  intros Heq. inversion Heq; subst. simpl. eauto 10.
Qed.

Lemma returned_document_shape_witness :
  ∃ sf r', SerializedFileReader_read 1 (open small_file) = (Return sf, r') ∧
           version (header sf) = 15 ∧ is_Some (script_types sf).
Proof.
  assert (Hr : ∃ sf r', SerializedFileReader_read 1 (open small_file)
                        = (Return sf, r'))
    by (eexists _, _; vm_compute; reflexivity).
  destruct Hr as (sf & r' & Hr).
  destruct (returned_document_shape 1 _ r' sf Hr)
    as (Hv & _ & _ & _ & _ & _ & _ & _ & Hs).
  exists sf, r'. repeat split; assumption.
Defined.

(** X20: on any stream, the type table [read_types] returns under a
    version-15 header has as many classes as the count read before the
    entries, and the entries were read with the embedded flag it
    returns. *)
Theorem read_types_count {S} `{Stream S} (fuel : nat) (hd : Header)
    (r r' : BinaryReader S) (ty : Types) :
  version hd = 15 → read_types fuel hd r = (Return ty, r') →
  ∃ r1 r2 cnt,
    read_int32 r1 = (Return cnt, r2) ∧
    for_range (Z.to_nat cnt) (read_types_entry (embedded ty)) ∅ r2
      = (Return (classes ty), r') ∧
    base.size (classes ty) = Z.to_nat cnt.
Proof.
  intros Hv. unfold read_types. rewrite Hv. simpl. unfold bind.
  case_binds. intros Heq. inversion Heq; subst; simpl.
  repeat match goal with
         | Hx : (let (_, _) := ?x in _) = _ |- _ =>
             destruct x as [[?| |] ?]; try done
         end.
  unfold ret in *.
  repeat match goal with
         | Hx : (Return _, _) = (Return _, _) |- _ =>
             inversion Hx; subst; clear Hx
         end; simpl.
  eexists _, _, _. split; [eassumption|]. split; [eassumption|].
  match goal with
  | Hf : for_range _ _ _ _ = _ |- _ =>
      apply (for_range_count base.size) in Hf;
        [rewrite Hf, map_size_empty; lia|]
  end.
  intros acc r0 acc' r0' Hb.
  by destruct (read_types_entry_returns _ _ _ _ _ Hb) as [_ ?].
Qed.

Lemma read_types_count_witness :
  ∃ ty r' r1 r2 cnt,
    read_types 1 header_15 (BinaryReader_init (open two_class_table))
      = (Return ty, r') ∧
    read_int32 r1 = (Return cnt, r2) ∧
    for_range (Z.to_nat cnt) (read_types_entry (embedded ty)) ∅ r2
      = (Return (classes ty), r') ∧
    base.size (classes ty) = Z.to_nat cnt ∧
    base.size (classes ty) = 2%nat.
Proof.
  assert (Hr : ∃ ty r',
             read_types 1 header_15 (BinaryReader_init (open two_class_table))
             = (Return ty, r') ∧ base.size (classes ty) = 2%nat)
    by (eexists _, _; split; vm_compute; reflexivity).
  destruct Hr as (ty & r' & Hr & Htwo).
  destruct (read_types_count 1 header_15 _ r' ty eq_refl Hr)
    as (r1 & r2 & cnt & Hcnt & Hloop & Hsize).
  exists ty, r', r1, r2, cnt. repeat split; assumption.
Defined.

(** ** How seeks compose *)

(** X21: on a well-formed stream, seeking to the position [tell] returns
    changes nothing, and a relative or end-based seek is the absolute
    seek to the position it resolves to. *)
Theorem seek_composes_with_tell (st : ChunkedFileIO) (pos d : Z) :
  wf st → ChunkedFileIO_tell st = (Return pos, st) →
  ChunkedFileIO_seek pos whence_SET st = (Return tt, st) ∧
  ChunkedFileIO_seek d whence_CUR st
    = ChunkedFileIO_seek (pos + d) whence_SET st ∧
  ChunkedFileIO_seek d whence_END st
    = ChunkedFileIO_seek (total (chunks st) + d) whence_SET st.
Proof.
  intros Hwf Ht. pose proof Hwf as [Hl Hi].
  destruct (lookup_lt_is_Some_2 _ _ Hi) as [c Hc].
  rewrite (ChunkedFileIO_tell_at _ c Hc) in Ht. inversion Ht as [Hpos].
  destruct (laid_out_lookup _ _ _ _ Hl Hc) as (? & ? & ? & ? & ? & ? & _).
  assert (Hsome : is_Some (chunks st !! index st)) by eauto.
  split; [|split].
  - rewrite (ChunkedFileIO_seek_eq st _ whence_SET _ Hsome eq_refl).
    assert (Hsel : seek_target st (start c + position (handle c)) = index st).
    { unfold seek_target. rewrite Hc.
      destruct (_ <? _) eqn:Hb1; [apply Z.ltb_lt in Hb1; lia|].
      destruct (_ >? _) eqn:Hb2; [apply Z.gtb_lt in Hb2; lia|done]. }
    rewrite Hsel, (on_chunk_at _ _ _ c) by done.
    rewrite Chunk_seek_inside by lia. simpl.
    replace (start c + position (handle c) - start c)
      with (position (handle c)) by lia.
    assert (Hid : set_position c (position (handle c)) = c)
      by (by destruct c as [[? ?] ? ? ?]).
    rewrite Hid, list_insert_id by done. by destruct st.
  - rewrite (ChunkedFileIO_seek_eq st d whence_CUR (d + (start c + position (handle c)))
               Hsome); [|unfold resolve; simpl; by rewrite Hc].
    rewrite (ChunkedFileIO_seek_eq st _ whence_SET _ Hsome eq_refl).
    by replace (start c + position (handle c) + d)
      with (d + (start c + position (handle c))) by lia.
  - rewrite (ChunkedFileIO_seek_eq st d whence_END (d + total (chunks st))
               Hsome eq_refl).
    rewrite (ChunkedFileIO_seek_eq st _ whence_SET _ Hsome eq_refl).
    by replace (total (chunks st) + d) with (d + total (chunks st)) by lia.
Qed.

Lemma seek_composes_with_tell_witness :
  ChunkedFileIO_seek 0 whence_SET (built [bytes [1; 2]])
    = (Return tt, built [bytes [1; 2]]).
Proof.
  destruct (seek_composes_with_tell (built [bytes [1; 2]]) 0 0) as [Hs _];
    [wf_by_computation | reflexivity |].
  exact Hs.
Defined.

Lemma chunk_find_loop_first (l : list Chunk) :
  ∀ p pos cur i,
    laid_out p l → p ≤ pos ≤ total l → l ≠ [] →
    ∃ j c, chunk_find_loop pos cur i l = (i + j)%nat ∧ l !! j = Some c ∧
           pos ≤ end_ c ∧ (j = 0%nat ∨ start c < pos) ∧
           (∀ j' c', (j' < j)%nat → l !! j' = Some c' → end_ c' < pos).
Proof.
  induction l as [|c0 l IH]; intros p pos cur i Hl Hpos Hne; [done|].
  destruct Hl as (Hs & Hsz & Hp & He & Hp0 & Hl). simpl.
  destruct (end_ c0 >=? pos) eqn:Hge.
  - apply Z.geb_le in Hge. exists 0%nat, c0.
    split; [lia|]. split; [done|]. split; [done|]. split; [by left|].
    intros j' c' Hlt. lia.
  - rewrite Z.geb_leb in Hge. apply Z.leb_gt in Hge.
    destruct l as [|c1 l].
    + unfold total in Hpos. simpl in Hpos. lia.
    + rewrite total_cons in Hpos.
      destruct (IH (end_ c0) pos i (Datatypes.S i) Hl ltac:(lia) ltac:(done))
        as (j & c & Hf & Hj & Hle & Hfirst & Hbefore).
      exists (Datatypes.S j), c. rewrite Hf.
      split; [lia|]. split; [done|]. split; [done|]. split.
      * right. destruct Hfirst as [-> |?]; [|done].
        destruct (laid_out_lookup _ _ _ _ Hl Hj) as (_ & _ & _ & _ & _ & _ & Hst).
        rewrite Hst by done. lia.
      * intros j' c' Hlt Hc'. destruct j' as [|j'].
        -- simpl in Hc'. inversion Hc'; subst. lia.
        -- simpl in Hc'. eapply Hbefore; [|exact Hc']. lia.
Qed.

(** X22: on a well-formed stream and for a position within it,
    [chunk_find] moves the cursor to the first chunk that ends at or
    after the position; a position on the border of two chunks goes to the
    chunk that ends there, not to the one that starts there. *)
Theorem chunk_find_selects_first (st : ChunkedFileIO) (pos : Z) :
  wf st → 0 ≤ pos ≤ total (chunks st) →
  ∃ j c,
    chunk_find pos st = (Return j, {| chunks := chunks st; index := j |}) ∧
    chunks st !! j = Some c ∧ pos ≤ end_ c ∧
    (j = 0%nat ∨ start c < pos) ∧
    (∀ j' c', (j' < j)%nat → chunks st !! j' = Some c' → end_ c' < pos).
Proof.
  intros [Hl Hi] Hpos.
  assert (Hne : chunks st ≠ []) by (intros He; rewrite He in Hi; simpl in Hi; lia).
  destruct (chunk_find_loop_first _ 0 pos (index st) 0%nat Hl Hpos Hne)
    as (j & c & Hf & Hj & Hrest).
  exists j, c. rewrite chunk_find_eq by done. rewrite Hf. simpl. done.
Qed.

Lemma chunk_find_selects_first_witness :
  fst (chunk_find 2 (built [bytes [1; 2]; bytes [3]])) = Return 0%nat.
Proof.
  destruct (chunk_find_selects_first (built [bytes [1; 2]; bytes [3]]) 2)
    as (j & c & Hf & Hj & _ & Hfirst & _);
    [wf_by_computation | by_computation |].
  rewrite Hf. simpl. f_equal.
  destruct Hfirst as [-> |Hlt]; [done|].
  destruct j as [|[|j]]; [done| |done].
  vm_compute in Hj. inversion Hj; subst. vm_compute in Hlt. done.
Defined.
